(** * Draft-lottery engine: a shallow embedding of [src/lib/lottery.ts]

    The development follows the TypeScript source function by function:
    [getValidPositionRange], [validateDraftResults],
    [weightedRandomSelection], [runLotteryRound] and [runCompleteLottery];
    then the store of [src/lib/database.ts] and the HTTP handlers of
    [src/pages/api] that read and write it.

    Modelling choices.
    - Positions, counts, round numbers and movements are JavaScript numbers
      that only ever hold integers here; they are [Z].
    - Percentages and weights are finite doubles; they are modelled by exact
      rationals ([Qc]).  Rounding is not modelled.  The result of a division
      is a [number], which adds the IEEE special values, because [0 / 0]
      (a [NaN]) is reachable when a percentage is [0].
    - [Math.random] is an oracle, the field [random] of an [Engine]; the
      state threaded through the code is the number of draws made so far.
    - [throw] / [try ... catch] is an outcome type; the state survives a
      throw, as the draws made before it are spent.
    - [[...teams].sort(() => Math.random() - 0.5)] depends on the sorting
      algorithm of the JavaScript engine.  It is the field [shuffle] of an
      [Engine]; where a result needs it, the engine is assumed to return a
      permutation of its input ([LawfulEngine]). *)

From Stdlib Require Import QArith Qcanon Field.
From stdpp Require Import base numbers list list_numbers sorting gmap strings pretty.

Local Open Scope Z_scope.

(** ** Data model ([src/types]) *)

Inductive LogoType := LogoUrl | LogoUpload.

Record Team := mkTeam {
  id : string;
  name : string;
  logoUrl : string;
  logoType : LogoType
}.

Record WeightedOdds := mkOdds {
  position : Z;
  percentage : Qc
}.

Record DraftConfig := mkConfig {
  numberOfTeams : Z;
  numberOfRounds : Z;
  teams : list Team;
  weightedSystem : list WeightedOdds;
  pickDelaySeconds : Z;
  currentYear : Z
}.

Record DraftPick := mkPick {
  round : Z;
  pickNumber : Z;
  teamId : string;
  originalPosition : Z;
  movement : Z
}.

(** ** Valid range *)

Definition MAX_MOVEMENT : Z := 2.

Record Range := mkRange { min : Z; max : Z }.

Definition getValidPositionRange (originalPosition totalTeams : Z) : Range :=
  {| min := Z.max 1 (originalPosition - MAX_MOVEMENT);
     max := Z.min totalTeams (originalPosition + MAX_MOVEMENT) |}.

(** [pos >= validRange.min && pos <= validRange.max] *)
Definition inRange (validRange : Range) (pos : Z) : Prop :=
  min validRange ≤ pos ∧ pos ≤ max validRange.

#[global] Instance inRange_dec validRange pos : Decision (inRange validRange pos).
Proof. unfold inRange. apply _. Defined.

(** ** JavaScript numbers, exceptions and the random source *)

(** A double: a finite value, or one of the IEEE special values.  Signed
    zeros are not distinguished. *)
Inductive number := Fin (q : Qc) | PosInf | NegInf | NaN.

(** A decimal literal such as [18.8], written [decimal 188 10]. *)
Definition decimal (n : Z) (d : positive) : Qc := Q2Qc (n # d).

Module Number.

(** [a / b] on finite doubles. *)
Definition div (a b : Qc) : number :=
  if decide (b = 0%Qc) then
    if decide (a = 0%Qc) then NaN
    else if decide (0 < a)%Qc then PosInf else NegInf
  else Fin (a / b)%Qc.

(** [a + b] on doubles. *)
Definition add (a b : number) : number :=
  match a, b with
  | NaN, _ | _, NaN => NaN
  | Fin x, Fin y => Fin (x + y)%Qc
  | PosInf, NegInf | NegInf, PosInf => NaN
  | PosInf, _ | _, PosInf => PosInf
  | NegInf, _ | _, NegInf => NegInf
  end.

(** [r <= c] for a finite [r]; every comparison with [NaN] is false. *)
Definition le (r : Qc) (c : number) : bool :=
  match c with
  | Fin q => bool_decide (r ≤ q)%Qc
  | PosInf => true
  | NegInf | NaN => false
  end.

End Number.

Inductive Exn :=
  | Error (message : string)
  | TypeError.

Inductive Outcome (A : Type) :=
  | Ok (a : A)
  | Throw (e : Exn).
Arguments Ok {A} a.
Arguments Throw {A} e.

(** A run that ends in a throw. *)
Definition throws {A} (r : Outcome A * nat) : Prop := ∃ e s', r = (Throw e, s').

(** The JavaScript engine, as far as the lottery sees it: the values
    [Math.random] returns, and [Array.prototype.sort] under the comparator
    [() => Math.random() - 0.5], which maps a list and the number of draws
    made so far to the list it leaves and the number of draws made then. *)
Class Engine := {
  random : nat → Qc;
  shuffle : ∀ {A : Type}, list A → nat → list A * nat
}.

(** An engine whose [sort] returns its input in some order, whatever the
    comparator answers. *)
Class LawfulEngine (E : Engine) :=
  shuffle_Permutation : ∀ (A : Type) (l : list A) (s : nat), (shuffle l s).1 ≡ₚ l.

(** Computations that draw random numbers and may throw.  The state is the
    number of calls of [Math.random] so far. *)
Definition M (A : Type) : Type := nat → Outcome A * nat.

Definition ret {A} (a : A) : M A := λ s, (Ok a, s).
Definition throw {A} (e : Exn) : M A := λ s, (Throw e, s).
Definition bind {A B} (m : M A) (k : A → M B) : M B := λ s,
  match m s with
  | (Ok a, s') => k a s'
  | (Throw e, s') => (Throw e, s')
  end.
Definition lift {A} (o : Outcome A) : M A := λ s, (o, s).

Notation "'let!' x ':=' m 'in' k" := (bind m (λ x, k))
  (at level 10, x name, m at level 100, k at level 200).

(** [Math.random()] *)
Definition mathRandom `{Engine} : M Qc := λ s, (Ok (random s), S s).

(** [arr[i]]: [None] is [undefined]. *)
Definition arrayGet {A} (arr : list A) (i : Z) : option A :=
  if decide (0 ≤ i) then arr !! Z.to_nat i else None.

(** [arr.map(f)] for an [f] that may throw: the first throw ends the map. *)
Fixpoint mapOutcome {A B} (f : A → Outcome B) (arr : list A) : Outcome (list B) :=
  match arr with
  | [] => Ok []
  | x :: rest =>
      match f x with
      | Throw e => Throw e
      | Ok y =>
          match mapOutcome f rest with
          | Throw e => Throw e
          | Ok ys => Ok (y :: ys)
          end
      end
  end.

(** [arr.sort((a, b) => key(a) - key(b))]: the sort is stable, so the result
    is the one of a stable insertion sort. *)
Fixpoint insertByKey {A} (key : A → Z) (x : A) (sorted : list A) : list A :=
  match sorted with
  | [] => [x]
  | y :: rest =>
      if decide (key x ≤ key y) then x :: y :: rest
      else y :: insertByKey key x rest
  end.

Definition sortByKey {A} (key : A → Z) (arr : list A) : list A :=
  foldr (insertByKey key) [] arr.

(** ** Validation *)

Record Validation := mkValidation { valid : bool; errors : list string }.

Definition validateDraftResults (picks : list DraftPick) : Validation :=
  let errors :=
    foldl (λ errors pick,
             let movement := Z.abs (movement pick) in
             if decide (movement > MAX_MOVEMENT) then
               errors ++ ["Team at original position " +:+ pretty (originalPosition pick)
                          +:+ " moved " +:+ pretty movement
                          +:+ " spots (max allowed: " +:+ pretty MAX_MOVEMENT +:+ ")"]
             else errors) [] picks in
  {| valid := bool_decide (length errors = 0%nat); errors := errors |}.

(** ** Weighted selection *)

(** The weight of candidate [pos] for the team at [originalPosition]:
    the body of [validPositions.map((pos) => ...)]. *)
Definition candidateWeight (teamOdds : WeightedOdds) (originalPosition pos : Z) : Qc :=
  let movement := originalPosition - pos in
  let weight := percentage teamOdds in
  if decide (movement > 0) then
    (weight * (1 + Qc_of_Z movement * decimal 2 10))%Qc
  else if decide (movement < 0) then
    (weight * (1 - Qc_of_Z (Z.abs movement) * decimal 2 10))%Qc
  else weight.

(** The [for (const prob of normalizedProbs)] loop: [None] when the loop
    ends without a [return]. *)
Fixpoint walk (random : Qc) (cumulative : number) (normalizedProbs : list (Z * number))
  : option Z :=
  match normalizedProbs with
  | [] => None
  | prob :: rest =>
      let cumulative := Number.add cumulative prob.2 in
      if Number.le random cumulative then Some prob.1 else walk random cumulative rest
  end.

Definition probabilitiesOf (teamOdds : WeightedOdds) (originalPosition : Z)
    (validPositions : list Z) : list (Z * Qc) :=
  map (λ pos, (pos, candidateWeight teamOdds originalPosition pos)) validPositions.

Definition totalWeightOf (probabilities : list (Z * Qc)) : Qc :=
  foldl (λ sum p, (sum + p.2)%Qc) 0%Qc probabilities.

Definition normalizedProbsOf (probabilities : list (Z * Qc)) : list (Z * number) :=
  let totalWeight := totalWeightOf probabilities in
  map (λ p, (p.1, Number.div p.2 totalWeight)) probabilities.


(** [availablePositions.filter((pos) => pos >= validRange.min && pos <= validRange.max)]
    with the range [weightedRandomSelection] computes. *)
Definition selectionCandidates (availablePositions : list Z)
    (weightedSystem : list WeightedOdds) (originalPosition : Z) : list Z :=
  let validRange :=
    getValidPositionRange originalPosition (Z.of_nat (length weightedSystem)) in
  filter (inRange validRange) availablePositions.

(** [weightedSystem.find((odds) => odds.position === originalPosition)] *)
Definition findOdds (weightedSystem : list WeightedOdds) (originalPosition : Z)
  : option WeightedOdds :=
  List.find (λ odds, bool_decide (position odds = originalPosition)) weightedSystem.

Definition weightedRandomSelection `{Engine} (availablePositions : list Z)
    (weightedSystem : list WeightedOdds) (originalPosition : Z) : M Z :=
  let validPositions :=
    selectionCandidates availablePositions weightedSystem originalPosition in
  match validPositions with
  | [] =>
      throw (Error ("No valid positions available for team at original position "
                    +:+ pretty originalPosition))
  | [only] => ret only
  | first :: _ =>
      match findOdds weightedSystem originalPosition with
      | None =>
          throw (Error ("No weighted odds found for position " +:+ pretty originalPosition))
      | Some teamOdds =>
          let probabilities := probabilitiesOf teamOdds originalPosition validPositions in
          let normalizedProbs := normalizedProbsOf probabilities in
          let! random := mathRandom in
          match walk random (Fin 0%Qc) normalizedProbs with
          | Some pos => ret pos
          | None => ret first
          end
      end
  end.

(** ** One round *)

Module Entry.
(** The objects of the [teams] list built in [runLotteryRound]. *)
Record t := mk { originalPosition : Z; teamId : string }.
End Entry.

Definition MAX_ATTEMPTS : nat := 1000.

(** [config.teams[originalPosition - 1].id]; reading [.id] of [undefined]
    throws a [TypeError]. *)
Definition teamIdAt (config : DraftConfig) (originalPosition : Z) : Outcome string :=
  match arrayGet (teams config) (originalPosition - 1) with
  | Some team => Ok (id team)
  | None => Throw TypeError
  end.

Definition availableOf (config : DraftConfig) (assignedPositions : gset Z) : list Z :=
  filter (λ pos, pos ∉ assignedPositions) (seqZ 1 (numberOfTeams config)).

(** The [validPositions] of [runLotteryRound]: the available positions in
    the range computed from [config.numberOfTeams]. *)
Definition roundCandidates (config : DraftConfig) (assignedPositions : gset Z)
    (originalPosition : Z) : list Z :=
  let validRange := getValidPositionRange originalPosition (numberOfTeams config) in
  filter (inRange validRange) (availableOf config assignedPositions).

(** The [for (const team of shuffledTeams)] loop; [picks] and
    [assignedPositions] are the two objects it updates. *)
Fixpoint assignTeams `{Engine} (config : DraftConfig) (roundNumber : Z)
    (shuffledTeams : list Entry.t) (picks : list DraftPick)
    (assignedPositions : gset Z) : M (list DraftPick) :=
  match shuffledTeams with
  | [] => ret picks
  | team :: rest =>
      let availablePositions := availableOf config assignedPositions in
      let validPositions :=
        roundCandidates config assignedPositions (Entry.originalPosition team) in
      if decide (length validPositions = 0%nat) then throw (Error "No valid positions")
      else
        let! selectedPosition :=
          weightedRandomSelection availablePositions (weightedSystem config)
            (Entry.originalPosition team) in
        let movement := selectedPosition - Entry.originalPosition team in
        assignTeams config roundNumber rest
          (picks ++ [{| round := roundNumber;
                        pickNumber := selectedPosition;
                        teamId := Entry.teamId team;
                        originalPosition := Entry.originalPosition team;
                        movement := movement |}])
          ({[selectedPosition]} ∪ assignedPositions)
  end.

(** The body of the [try] block: [Some picks] is the [return], [None] is
    falling out of the block because [allValid] is false. *)
Definition attemptBody `{Engine} (config : DraftConfig) (roundNumber : Z)
    (initialOrder : list Z) : M (option (list DraftPick)) :=
  let! teams :=
    lift (mapOutcome (λ originalPosition,
            match teamIdAt config originalPosition with
            | Ok teamId => Ok (Entry.mk originalPosition teamId)
            | Throw e => Throw e
            end) initialOrder) in
  let! shuffledTeams := (λ s, let r := shuffle teams s in (Ok r.1, r.2)) in
  let! picks := assignTeams config roundNumber shuffledTeams [] ∅ in
  let allValid :=
    forallb (λ pick, bool_decide (Z.abs (movement pick) ≤ MAX_MOVEMENT)) picks in
  if allValid then ret (Some (sortByKey pickNumber picks)) else ret None.

(** One turn of the [while] loop: [catch (error) { }] turns a throw into
    going on with the next attempt. *)
Definition attempt `{Engine} (config : DraftConfig) (roundNumber : Z)
    (initialOrder : list Z) (s : nat) : option (list DraftPick) * nat :=
  match attemptBody config roundNumber initialOrder s with
  | (Ok result, s') => (result, s')
  | (Throw _, s') => (None, s')
  end.

(** [while (attempt < MAX_ATTEMPTS)], by the number of attempts left. *)
Fixpoint attemptLoop `{Engine} (remaining : nat) (config : DraftConfig) (roundNumber : Z)
    (initialOrder : list Z) (s : nat) : option (list DraftPick) * nat :=
  match remaining with
  | O => (None, s)
  | S remaining =>
      match attempt config roundNumber initialOrder s with
      | (Some picks, s') => (Some picks, s')
      | (None, s') => attemptLoop remaining config roundNumber initialOrder s'
      end
  end.

(** The statement after the loop: no movement. *)
Definition noMovement (config : DraftConfig) (roundNumber : Z) (initialOrder : list Z)
  : Outcome (list DraftPick) :=
  match mapOutcome (λ originalPosition,
          match teamIdAt config originalPosition with
          | Ok teamId =>
              Ok {| round := roundNumber;
                    pickNumber := originalPosition;
                    teamId := teamId;
                    originalPosition := originalPosition;
                    movement := 0 |}
          | Throw e => Throw e
          end) initialOrder with
  | Ok picks => Ok (sortByKey pickNumber picks)
  | Throw e => Throw e
  end.

Definition runLotteryRound `{Engine} (config : DraftConfig) (roundNumber : Z)
    (initialOrder : list Z) : M (list DraftPick) := λ s,
  match attemptLoop MAX_ATTEMPTS config roundNumber initialOrder s with
  | (Some picks, s') => (Ok picks, s')
  | (None, s') => (noMovement config roundNumber initialOrder, s')
  end.

(** ** All rounds *)

(** The [for (let round = 1; round <= config.numberOfRounds; round++)] loop,
    over the rounds still to run. *)
Fixpoint roundsLoop `{Engine} (config : DraftConfig) (initialOrder : list Z)
    (rounds : list Z) (allPicks : list DraftPick) : M (list DraftPick) :=
  match rounds with
  | [] => ret allPicks
  | round :: rest =>
      let! roundPicks := runLotteryRound config round initialOrder in
      let validation := validateDraftResults roundPicks in
      if negb (valid validation) then
        throw (Error ("Invalid lottery results for round " +:+ pretty round +:+ ": "
                      +:+ String.concat ", " (errors validation)))
      else roundsLoop config initialOrder rest (allPicks ++ roundPicks)
  end.

Definition lengthMismatch (given expected : Z) : string :=
  "Initial order length (" +:+ pretty given
  +:+ ") must match number of teams (" +:+ pretty expected +:+ ")".

Definition runCompleteLottery `{Engine} (config : DraftConfig) (initialOrder : list Z)
  : M (list DraftPick) :=
  if decide (Z.of_nat (length initialOrder) ≠ numberOfTeams config) then
    throw (Error (lengthMismatch (Z.of_nat (length initialOrder)) (numberOfTeams config)))
  else
    roundsLoop config initialOrder (seqZ 1 (numberOfRounds config)) [].

(** [message] contains [part]. *)
Definition contains (message part : string) : Prop :=
  ∃ before after, message = before +:+ part +:+ after.

(** What every pick returned satisfies: the movement is the pick number
    less the original position, and is at most [MAX_MOVEMENT] either way. *)
Definition withinMovement (pick : DraftPick) : Prop :=
  movement pick = pickNumber pick - originalPosition pick
  ∧ Z.abs (movement pick) ≤ MAX_MOVEMENT.

(** ** Well-formed inputs *)

(** [config.teams] has a team for every entry of [initialOrder]. *)
Definition hasTeams (config : DraftConfig) (initialOrder : list Z) : Prop :=
  ∀ originalPosition, originalPosition ∈ initialOrder →
    is_Some (arrayGet (teams config) (originalPosition - 1)).

(** A configuration of at least one team, with a team for each position
    [1..N] and exactly one odds entry for each position [1..N]. *)
Definition wellFormed (config : DraftConfig) : Prop :=
  1 ≤ numberOfTeams config
  ∧ hasTeams config (seqZ 1 (numberOfTeams config))
  ∧ position <$> weightedSystem config ≡ₚ seqZ 1 (numberOfTeams config).

(** The first [n] turns of the loop of [runLotteryRound], begun after [s]
    draws, all end without a [return]. *)
Fixpoint allAttemptsFail `{Engine} (n : nat) (config : DraftConfig) (roundNumber : Z)
    (initialOrder : list Z) (s : nat) : Prop :=
  match n with
  | O => True
  | S n =>
      (attempt config roundNumber initialOrder s).1 = None
      ∧ allAttemptsFail n config roundNumber initialOrder
          (attempt config roundNumber initialOrder s).2
  end.

(** The pick that leaves a team where it was. *)
Definition unmoved (roundNumber originalPosition : Z) (teamId : string) : DraftPick :=
  {| round := roundNumber; pickNumber := originalPosition; teamId := teamId;
     originalPosition := originalPosition; movement := 0 |}.

(** ** A sample engine and sample configurations *)

(** An insertion sort that asks the comparator [() => Math.random() - 0.5]
    where to put each element: one way an engine may sort a short array. *)
Fixpoint insertRandom {A} (random : nat → Qc) (x : A) (sorted : list A) (s : nat)
  : list A * nat :=
  match sorted with
  | [] => ([x], s)
  | y :: rest =>
      if decide (random s - decimal 5 10 < 0)%Qc then (x :: y :: rest, S s)
      else let r := insertRandom random x rest (S s) in (y :: r.1, r.2)
  end.

Fixpoint sortRandom {A} (random : nat → Qc) (arr : list A) (s : nat) : list A * nat :=
  match arr with
  | [] => ([], s)
  | x :: rest =>
      let r := sortRandom random rest s in insertRandom random x r.1 r.2
  end.

(** Draws [0.37, 0.74, 0.11, 0.48, ...]: the multiples of [0.37] modulo 1. *)
Definition sampleRandom (i : nat) : Qc :=
  decimal ((37 * Z.of_nat (S i)) mod 100) 100.

Definition sampleEngine : Engine :=
  {| random := sampleRandom; shuffle := λ A, sortRandom sampleRandom |}.

Definition sampleTeam (n : Z) : Team :=
  {| id := "team-" +:+ pretty n; name := "Team " +:+ pretty n;
     logoUrl := ""; logoType := LogoUrl |}.

(** The default configuration of the application ([defaultConfig]). *)
Definition defaultConfig : DraftConfig :=
  {| numberOfTeams := 10;
     numberOfRounds := 5;
     teams := sampleTeam <$> seqZ 1 10;
     weightedSystem :=
       [ mkOdds 10 (decimal 250 10); mkOdds 9 (decimal 188 10);
         mkOdds 8 (decimal 141 10); mkOdds 7 (decimal 105 10);
         mkOdds 6 (decimal 79 10); mkOdds 5 (decimal 62 10);
         mkOdds 4 (decimal 62 10); mkOdds 3 (decimal 47 10);
         mkOdds 2 (decimal 35 10); mkOdds 1 (decimal 31 10) ];
     pickDelaySeconds := 3;
     currentYear := 2024 |}.

(** ** The store ([src/lib/database.ts])

    [Database] keeps one JSON file.  Its methods never look inside a
    configuration, so the configuration type is a parameter [Config]
    ([DraftConfig] with its optional [initialOrder]).  The file is missing,
    or holds text that [JSON.parse] rejects, or holds a database;
    [JSON.parse (JSON.stringify db)] is taken to be [db].  A method is
    modelled run to completion on its own; calls that overlap in time are
    outside the model. *)

Module DraftLottery.
Record t (Config : Type) := mk {
  id : string;
  year : Z;
  date : string;
  picks : list DraftPick;
  config : Config
}.
Arguments mk {Config}.
Arguments id {Config}.
Arguments year {Config}.
Arguments date {Config}.
Arguments picks {Config}.
Arguments config {Config}.
End DraftLottery.

Module Database.

Record DatabaseSchema (Config : Type) := mkSchema {
  config : Config;
  lotteries : list (DraftLottery.t Config)
}.
Arguments mkSchema {Config}.
Arguments config {Config}.
Arguments lotteries {Config}.

Inductive File (Config : Type) :=
  | Missing
  | Unparseable
  | Holds (db : DatabaseSchema Config).
Arguments Missing {Config}.
Arguments Unparseable {Config}.
Arguments Holds {Config}.

(** An [async] method: the value it resolves with, or [None] when the
    promise rejects, and the file it leaves. *)
Definition Task (Config A : Type) : Type := File Config → option A * File Config.

Definition resolve {Config A} (a : A) : Task Config A := λ file, (Some a, file).
Definition reject {Config A} : Task Config A := λ file, (None, file).
Definition await {Config A B} (task : Task Config A) (k : A → Task Config B)
  : Task Config B := λ file,
  match task file with
  | (Some a, file') => k a file'
  | (None, file') => (None, file')
  end.

Section Methods.
Context {Config : Type} (defaultConfig : Config).

Definition defaultDatabase : DatabaseSchema Config :=
  {| config := defaultConfig; lotteries := [] |}.

(** [fs.access] rejects when the file is missing; the [catch] then writes
    the default database. *)
Definition ensureDbExists : Task Config unit := λ file,
  match file with
  | Missing => (Some (), Holds defaultDatabase)
  | _ => (Some (), file)
  end.

(** [fs.readFile] followed by [JSON.parse]. *)
Definition readFile : Task Config (DatabaseSchema Config) := λ file,
  match file with
  | Holds db => (Some db, file)
  | Missing | Unparseable => (None, file)
  end.

Definition read : Task Config (DatabaseSchema Config) :=
  await ensureDbExists (λ _, readFile).

Definition write (data : DatabaseSchema Config) : Task Config unit := λ _,
  (Some (), Holds data).

Definition getConfig : Task Config Config :=
  await read (λ db, resolve (config db)).

Definition updateConfig (newConfig : Config) : Task Config unit :=
  await read (λ db, write {| config := newConfig; lotteries := lotteries db |}).

(** [db.lotteries.sort((a, b) => b.year - a.year)] *)
Definition getAllLotteries : Task Config (list (DraftLottery.t Config)) :=
  await read (λ db,
    resolve (sortByKey (λ lottery, - DraftLottery.year lottery) (lotteries db))).

(** [db.lotteries.find((lottery) => lottery.year === year)]; [None] inside
    is [undefined]. *)
Definition getLotteryByYear (year : Z) : Task Config (option (DraftLottery.t Config)) :=
  await read (λ db,
    resolve (List.find (λ lottery, bool_decide (DraftLottery.year lottery = year))
               (lotteries db))).

Definition saveLottery (lottery : DraftLottery.t Config) : Task Config unit :=
  await read (λ db,
    let kept :=
      filter (λ l, DraftLottery.year l ≠ DraftLottery.year lottery) (lotteries db) in
    write {| config := config db; lotteries := kept ++ [lottery] |}).

Definition deleteLottery (year : Z) : Task Config unit :=
  await read (λ db,
    write {| config := config db;
             lotteries := filter (λ l, DraftLottery.year l ≠ year) (lotteries db) |}).

Definition initialize : Task Config unit := ensureDbExists.

End Methods.

(** The lotteries a file holds; none when there is no database in it. *)
Definition stored {Config} (file : File Config) : list (DraftLottery.t Config) :=
  match file with
  | Holds db => lotteries db
  | Missing | Unparseable => []
  end.


(** [defaultConfig] of the source; [currentYear] is the year at load time,
    [new Date().getFullYear()]. *)
Definition defaultConfig (currentYear : Z) : DraftConfig :=
  let icon (season file : string) : string :=
    "https://www47.myfantasyleague.com/fflnetdynamic" +:+ season +:+ "_franchise_icon"
    +:+ file in
  {| numberOfTeams := 10;
     numberOfRounds := 5;
     teams :=
       [ mkTeam "team-1" "Knockout Kings" (icon "2024/58890" "0001.png") LogoUrl;
         mkTeam "team-2" "Operation BlackRhino" (icon "2024/58890" "0002.jpg") LogoUrl;
         mkTeam "team-3" "Loco Lobos" (icon "2024/58890" "0003.png") LogoUrl;
         mkTeam "team-4" "Buck Hunters" (icon "2023/58890" "0004.jpg") LogoUrl;
         mkTeam "team-5" "Chieftains" (icon "2024/58890" "0005.png") LogoUrl;
         mkTeam "team-6" "Redskin Nation" (icon "2022/72440" "0006.png") LogoUrl;
         mkTeam "team-7" "Whiskey Warriors" (icon "2022/72440" "0007.png") LogoUrl;
         mkTeam "team-8" "Gorilla Warefare Klan" (icon "2022/72440" "0008.png") LogoUrl;
         mkTeam "team-9" "Evil Engineers" (icon "2022/72440" "0009.jpg") LogoUrl;
         mkTeam "team-10" "Guardians" (icon "2024/58890" "0010.png") LogoUrl ];
     weightedSystem :=
       [ mkOdds 10 (decimal 250 10); mkOdds 9 (decimal 188 10);
         mkOdds 8 (decimal 141 10); mkOdds 7 (decimal 105 10);
         mkOdds 6 (decimal 79 10); mkOdds 5 (decimal 62 10);
         mkOdds 4 (decimal 62 10); mkOdds 3 (decimal 47 10);
         mkOdds 2 (decimal 35 10); mkOdds 1 (decimal 31 10) ];
     pickDelaySeconds := 3;
     currentYear := currentYear |}.

End Database.

(** ** The HTTP handlers ([src/pages/api])

    A handler maps the file to a response and the file it leaves.  The body
    of a response is the value that [JSON.stringify] is applied to.
    [request.json()] is the parsed body, or [None] when it rejects.
    [parseInt] is a parameter: [None] is [NaN]. *)

Module Api.

Inductive Body (Config : Type) :=
  | ConfigBody (config : Config)
  | LotteryBody (lottery : DraftLottery.t Config)
  | LotteriesBody (lotteries : list (DraftLottery.t Config))
  | SuccessBody
  | ErrorBody (error : string).
Arguments ConfigBody {Config}.
Arguments LotteryBody {Config}.
Arguments LotteriesBody {Config}.
Arguments SuccessBody {Config}.
Arguments ErrorBody {Config}.

Record Response (Config : Type) := mkResponse {
  body : Body Config;
  status : Z;
  headers : list (string * string)
}.
Arguments mkResponse {Config}.
Arguments body {Config}.
Arguments status {Config}.
Arguments headers {Config}.

Definition json {Config} (body : Body Config) (status : Z) : Response Config :=
  {| body := body; status := status;
     headers := [("Content-Type", "application/json")] |}.

Section Handlers.
Context {Config : Type} (defaultConfig : Config) (parseInt : string → option Z).

(** [GET /api/config] *)
Definition getConfig (file : Database.File Config)
  : Response Config * Database.File Config :=
  match Database.getConfig defaultConfig file with
  | (Some config, file') => (json (ConfigBody config) 200, file')
  | (None, file') => (json (ErrorBody "Failed to fetch config") 500, file')
  end.



(** [GET /api/lottery/[year]]; [yearParam] is [params.year], [None] when it
    is [undefined], and [default "" yearParam] is [params.year || '']. *)
Definition getLottery (yearParam : option string) (file : Database.File Config)
  : Response Config * Database.File Config :=
  match parseInt (default "" yearParam) with
  | None => (json (ErrorBody "Invalid year") 400, file)
  | Some year =>
      match Database.getLotteryByYear defaultConfig year file with
      | (Some (Some lottery), file') => (json (LotteryBody lottery) 200, file')
      | (Some None, file') => (json (ErrorBody "Lottery not found") 404, file')
      | (None, file') => (json (ErrorBody "Failed to fetch lottery") 500, file')
      end
  end.

End Handlers.

End Api.

(** [C8] [getValidPositionRange p N] is the closed interval
    [max 1 (p - 2) .. min N (p + 2)], for all [p] and [N]; for [N = 10] the
    positions 1, 5 and 10 give [1..3], [3..7] and [8..10].  The function is a
    total, pure function: it has a value on every input. *)
Theorem getValidPositionRange_spec :
  (∀ p N : Z,
      getValidPositionRange p N = mkRange (Z.max 1 (p - 2)) (Z.min N (p + 2)))
  ∧ getValidPositionRange 1 10 = mkRange 1 3
  ∧ getValidPositionRange 5 10 = mkRange 3 7
  ∧ getValidPositionRange 10 10 = mkRange 8 10.
Proof. repeat split. Qed.

(** * Properties *)

(** ** The comparator sort *)

Section SortByKey.
Context {A : Type} (key : A → Z).

Lemma insertByKey_Permutation x l : insertByKey key x l ≡ₚ x :: l.
Proof.
  induction l as [|y l IH]; simpl; [done|].
  case_decide; [done|]. rewrite IH. apply Permutation_swap.
Qed.

Lemma sortByKey_Permutation l : sortByKey key l ≡ₚ l.
Proof.
  induction l as [|x l IH]; simpl; [done|].
  rewrite insertByKey_Permutation. by rewrite IH.
Qed.

Lemma insertByKey_Sorted x l :
  Sorted Z.le (key <$> l) → Sorted Z.le (key <$> insertByKey key x l).
Proof.
  induction l as [|y l IH]; simpl; intros Hs.
  - repeat constructor.
  - case_decide as Hxy; simpl.
    + constructor; [done|]. by constructor.
    + apply Sorted_inv in Hs as [Hs Hhd]. constructor; [by apply IH|].
      destruct l as [|z l]; simpl in *.
      * constructor. lia.
      * case_decide; simpl; constructor; [lia|].
        by apply HdRel_inv in Hhd.
Qed.

Lemma sortByKey_Sorted l : Sorted Z.le (key <$> sortByKey key l).
Proof.
  induction l as [|x l IH]; simpl; [constructor|]. by apply insertByKey_Sorted.
Qed.

Lemma sortByKey_length l : length (sortByKey key l) = length l.
Proof. by rewrite sortByKey_Permutation. Qed.

Lemma sortByKey_Forall (P : A → Prop) l : Forall P l → Forall P (sortByKey key l).
Proof. by rewrite sortByKey_Permutation. Qed.

End SortByKey.

Lemma Sorted_seqZ m n : Sorted Z.le (seqZ m n).
Proof.
  destruct (decide (n ≤ 0)) as [|Hn]; [by rewrite seqZ_nil|].
  rewrite <-(Z2Nat.id n) by lia. generalize (Z.to_nat n) as k. clear.
  intros k; revert m. induction k as [|k IH]; intros m; [constructor|].
  rewrite seqZ_cons by lia. constructor.
  - replace (Z.pred (Z.of_nat (S k))) with (Z.of_nat k) by lia. apply IH.
  - replace (Z.pred (Z.of_nat (S k))) with (Z.of_nat k) by lia.
    destruct k; [rewrite seqZ_nil by lia; constructor|].
    rewrite seqZ_cons by lia. constructor. lia.
Qed.

(** A list sorted by key whose keys are the numbers [1..N] in some order
    has the keys [1, 2, ..., N]. *)
Lemma sortByKey_seqZ {A} (key : A → Z) l N :
  key <$> l ≡ₚ seqZ 1 N → key <$> sortByKey key l = seqZ 1 N.
Proof.
  intros Hp. apply (Sorted_unique Z.le).
  - apply sortByKey_Sorted.
  - apply Sorted_seqZ.
  - by rewrite sortByKey_Permutation.
Qed.

(** ** Weighted selection *)

Lemma elem_of_selectionCandidates availablePositions weightedSystem originalPosition c :
  c ∈ selectionCandidates availablePositions weightedSystem originalPosition
  ↔ c ∈ availablePositions
    ∧ Z.max 1 (originalPosition - 2) ≤ c
      ≤ Z.min (Z.of_nat (length weightedSystem)) (originalPosition + 2).
Proof.
  unfold selectionCandidates. rewrite list_elem_of_filter.
  unfold inRange, getValidPositionRange, MAX_MOVEMENT; simpl. tauto.
Qed.

Lemma findOdds_None weightedSystem originalPosition :
  findOdds weightedSystem originalPosition = None
  ↔ ∀ odds, odds ∈ weightedSystem → position odds ≠ originalPosition.
Proof.
  unfold findOdds. induction weightedSystem as [|o ws IH]; simpl.
  - split; [|done]. intros _ odds Hin. by apply elem_of_nil in Hin.
  - case_bool_decide as Ho.
    + split; [done|]. intros Hall. destruct (Hall o); [left|done].
    + rewrite IH. split.
      * intros Hall odds [->|Hin]%elem_of_cons; auto.
      * intros Hall odds Hin. apply Hall. by right.
Qed.

Lemma findOdds_Some weightedSystem originalPosition teamOdds :
  findOdds weightedSystem originalPosition = Some teamOdds →
  teamOdds ∈ weightedSystem ∧ position teamOdds = originalPosition.
Proof.
  unfold findOdds. intros [Hin Hp]%find_some.
  apply list_elem_of_In in Hin. by apply bool_decide_eq_true in Hp.
Qed.

Lemma walk_elem_of random cumulative normalizedProbs pos :
  walk random cumulative normalizedProbs = Some pos → pos ∈ normalizedProbs.*1.
Proof.
  revert cumulative. induction normalizedProbs as [|p l IH]; intros c; simpl; [done|].
  destruct (Number.le random (Number.add c p.2)).
  - intros [= <-]. left.
  - intros Hw. right. eauto.
Qed.

Lemma normalizedProbsOf_positions teamOdds originalPosition validPositions :
  (normalizedProbsOf (probabilitiesOf teamOdds originalPosition validPositions)).*1
  = validPositions.
Proof.
  unfold normalizedProbsOf, probabilitiesOf.
  unfold normalizedProbsOf, probabilitiesOf.
  rewrite <-!list_fmap_compose. apply list_eq; intros i.
  rewrite list_lookup_fmap. by destruct (validPositions !! i).
Qed.

Section Selection.
Context `{Engine}.

(** What [weightedRandomSelection] does, case by case on its candidates. *)
Lemma weightedRandomSelection_cases availablePositions weightedSystem originalPosition s :
  match selectionCandidates availablePositions weightedSystem originalPosition with
  | [] => throws (weightedRandomSelection availablePositions weightedSystem
                    originalPosition s)
  | [only] =>
      weightedRandomSelection availablePositions weightedSystem originalPosition s
      = (Ok only, s)
  | first :: _ =>
      match findOdds weightedSystem originalPosition with
      | None => throws (weightedRandomSelection availablePositions weightedSystem
                          originalPosition s)
      | Some _ =>
          ∃ pos, weightedRandomSelection availablePositions weightedSystem
                   originalPosition s = (Ok pos, S s)
                 ∧ pos ∈ selectionCandidates availablePositions weightedSystem
                           originalPosition
      end
  end.
Proof.
  unfold weightedRandomSelection.
  destruct (selectionCandidates _ _ _) as [|first [|second rest]] eqn:Hc.
  - by eexists _, _.
  - done.
  - destruct (findOdds _ _) as [teamOdds|]; [|by eexists _, _].
    unfold bind, mathRandom, ret.
    destruct (walk _ _ _) as [pos|] eqn:Hw.
    + exists pos. split; [done|].
      apply walk_elem_of in Hw. by rewrite normalizedProbsOf_positions in Hw.
    + exists first. split; [done|left].
Qed.

Lemma weightedRandomSelection_Ok availablePositions weightedSystem originalPosition s pos s' :
  weightedRandomSelection availablePositions weightedSystem originalPosition s
  = (Ok pos, s') →
  pos ∈ selectionCandidates availablePositions weightedSystem originalPosition.
Proof.
  intros Hrun.
  pose proof (weightedRandomSelection_cases availablePositions weightedSystem
                originalPosition s) as Hcases.
  destruct (selectionCandidates _ _ _) as [|first [|second rest]].
  - destruct Hcases as (e & s'' & He). congruence.
  - rewrite Hrun in Hcases. injection Hcases as -> _. left.
  - destruct (findOdds _ _).
    + destruct Hcases as (pos' & He & Hin). congruence.
    + destruct Hcases as (e & s'' & He). congruence.
Qed.

End Selection.


(** [C4], as the code has it: [weightedRandomSelection] throws exactly when
    no available position lies in the admissible window, or when two or more
    do and the odds table has no entry for the original position.  (With a
    single candidate it returns before it looks the odds up.)  The window is
    empty of available positions exactly when the candidate list is empty,
    and in every other case a candidate is returned. *)
Theorem weightedRandomSelection_throws_iff `{Engine}
    (availablePositions : list Z) (weightedSystem : list WeightedOdds)
    (originalPosition : Z) (s : nat) :
  (throws (weightedRandomSelection availablePositions weightedSystem originalPosition s)
   ↔ selectionCandidates availablePositions weightedSystem originalPosition = []
     ∨ ((2 ≤ length (selectionCandidates availablePositions weightedSystem
                       originalPosition))%nat
        ∧ ∀ odds, odds ∈ weightedSystem → position odds ≠ originalPosition))
  ∧ (selectionCandidates availablePositions weightedSystem originalPosition = []
     ↔ ∀ c, c ∈ availablePositions →
            ¬ inRange (getValidPositionRange originalPosition
                         (Z.of_nat (length weightedSystem))) c)
  ∧ (¬ throws (weightedRandomSelection availablePositions weightedSystem
                 originalPosition s)
     ↔ ∃ pos s',
         weightedRandomSelection availablePositions weightedSystem originalPosition s
         = (Ok pos, s')
         ∧ pos ∈ selectionCandidates availablePositions weightedSystem originalPosition).
Proof.
  pose proof (weightedRandomSelection_cases availablePositions weightedSystem
                originalPosition s) as Hcases.
  split; [|split].
  - rewrite <-findOdds_None.
    destruct (selectionCandidates _ _ _) as [|first [|second rest]]; simpl.
    + split; [by left|done].
    + rewrite Hcases. split.
      * intros (e & s' & He). done.
      * intros [?|[? _]]; [done|lia].
    + destruct (findOdds _ _).
      * destruct Hcases as (pos & He & _). rewrite He. split.
        -- intros (e & s' & He'). done.
        -- intros [?|[_ ?]]; done.
      * split; [|done]. intros _. right. split; [lia|done].
  - unfold selectionCandidates. split.
    + intros Hnil c Hin Hr. by eapply filter_nil_not_elem_of.
    + intros Hall. destruct (filter _ _) as [|c l] eqn:Hf; [done|].
      assert (c ∈ filter (inRange (getValidPositionRange originalPosition
                (Z.of_nat (length weightedSystem)))) availablePositions) as Hc
        by (rewrite Hf; left).
      apply list_elem_of_filter in Hc as [Hr Hin]. by destruct (Hall c).
  - split.
    + intros Hnot.
      destruct (weightedRandomSelection _ _ _ _) as [[pos|e] s'] eqn:Hrun.
      * exists pos, s'. split; [done|]. by eapply weightedRandomSelection_Ok.
      * destruct Hnot. by eexists _, _.
    + intros (pos & s' & He & _) (e & s'' & He'). congruence.
Qed.

(** [C4], refuted as stated: the odds table [[{position: 2}]] has no entry
    for original position 1, and yet the call with the one available
    position 1 returns 1. *)
Lemma weightedRandomSelection_no_odds_no_throw :
  (∀ odds, odds ∈ [mkOdds 2 (decimal 500 10)] → position odds ≠ 1)
  ∧ @weightedRandomSelection sampleEngine [1] [mkOdds 2 (decimal 500 10)] 1 0%nat
    = (Ok 1, 0%nat).
Proof.
  split; [|reflexivity].
  intros odds ->%list_elem_of_singleton. done.
Qed.



(** [C10] [weightedRandomSelection] takes the length of the odds table for
    the number of teams: its candidates are the available positions [c]
    with [max 1 (p - 2) <= c <= min weightedSystem.length (p + 2)], and every
    position it returns is one of them.  So when the table has fewer entries
    than [config.numberOfTeams], a position that the check of
    [runLotteryRound] accepts but that lies above
    [min weightedSystem.length (p + 2)] is never returned. *)
Theorem weightedRandomSelection_window `{Engine}
    (config : DraftConfig) (assignedPositions : gset Z)
    (originalPosition c : Z) (s : nat) :
  (∀ availablePositions weightedSystem x,
      x ∈ selectionCandidates availablePositions weightedSystem originalPosition
      ↔ x ∈ availablePositions
        ∧ Z.max 1 (originalPosition - 2) ≤ x
          ≤ Z.min (Z.of_nat (length weightedSystem)) (originalPosition + 2))
  ∧ (∀ availablePositions weightedSystem pos s',
        weightedRandomSelection availablePositions weightedSystem originalPosition s
        = (Ok pos, s') →
        pos ∈ availablePositions
        ∧ Z.max 1 (originalPosition - 2) ≤ pos
          ≤ Z.min (Z.of_nat (length weightedSystem)) (originalPosition + 2))
  ∧ (Z.of_nat (length (weightedSystem config)) < numberOfTeams config →
     c ∈ roundCandidates config assignedPositions originalPosition →
     Z.min (Z.of_nat (length (weightedSystem config))) (originalPosition + 2) < c →
     ∀ s', weightedRandomSelection (availableOf config assignedPositions)
             (weightedSystem config) originalPosition s ≠ (Ok c, s')).
Proof.
  split; [|split].
  - intros. apply elem_of_selectionCandidates.
  - intros availablePositions weightedSystem pos s' Hrun.
    apply weightedRandomSelection_Ok in Hrun.
    by apply elem_of_selectionCandidates in Hrun.
  - intros _ _ Hlt s' Hrun. apply weightedRandomSelection_Ok in Hrun.
    apply elem_of_selectionCandidates in Hrun. lia.
Qed.

(** Three teams and an odds table of one entry: for the team at position 3
    the round accepts position 3, which the selection never returns. *)
Lemma weightedRandomSelection_window_witness :
  let config := mkConfig 3 1 (sampleTeam <$> seqZ 1 3) [mkOdds 1 (decimal 1000 10)] 3 2024 in
  3 ∈ roundCandidates config ∅ 3
  ∧ ∀ s', @weightedRandomSelection sampleEngine (availableOf config ∅)
            (weightedSystem config) 3 0%nat ≠ (Ok 3, s').
Proof.
  intros config. split; [compute_done|].
  apply (@weightedRandomSelection_window sampleEngine config ∅ 3 3 0%nat).
  - simpl. lia.
  - compute_done.
  - simpl. lia.
Defined.

(** ** Weights and the walk *)

Section Weights.
Local Open Scope Qc_scope.







End Weights.




(** ** One round *)

Lemma mapOutcome_Ok {A B} (f : A → Outcome B) (arr : list A) (ys : list B) :
  mapOutcome f arr = Ok ys → Forall2 (λ x y, f x = Ok y) arr ys.
Proof.
  revert ys. induction arr as [|x arr IH]; simpl; intros ys.
  - intros [= <-]. constructor.
  - destruct (f x) as [y|] eqn:Hx; [|done].
    destruct (mapOutcome f arr) as [ys'|]; [|done].
    intros [= <-]. constructor; auto.
Qed.

Lemma mapOutcome_total {A B} (f : A → Outcome B) (arr : list A) :
  Forall (λ x, ∃ y, f x = Ok y) arr → ∃ ys, mapOutcome f arr = Ok ys.
Proof.
  induction 1 as [|x arr [y Hy] _ [ys IH]]; simpl; [by eexists|].
  rewrite Hy, IH. by eexists.
Qed.

Lemma mapOutcome_Throw {A B} (f : A → Outcome B) (arr : list A) e :
  mapOutcome f arr = Throw e → ∃ x, x ∈ arr ∧ f x = Throw e.
Proof.
  induction arr as [|x arr IH]; simpl; [done|].
  destruct (f x) as [y|e'] eqn:Hx.
  - destruct (mapOutcome f arr) as [ys|e']; [done|].
    intros [= ->]. destruct IH as (x' & Hin & Hx'); [done|].
    exists x'. split; [by right|done].
  - intros [= ->]. exists x. split; [left|done].
Qed.

Lemma teamIdAt_Throw config originalPosition e :
  teamIdAt config originalPosition = Throw e → e = TypeError.
Proof. unfold teamIdAt. destruct (arrayGet _ _); congruence. Qed.

Lemma teamIdAt_Ok config originalPosition :
  is_Some (arrayGet (teams config) (originalPosition - 1)) →
  ∃ teamId, teamIdAt config originalPosition = Ok teamId.
Proof. unfold teamIdAt. intros [team ->]. by eexists. Qed.

(** What a pick made by the loop of [runLotteryRound] satisfies. *)
Definition assigned (config : DraftConfig) (roundNumber : Z) (pick : DraftPick) : Prop :=
  round pick = roundNumber
  ∧ movement pick = pickNumber pick - originalPosition pick
  ∧ Z.abs (movement pick) ≤ MAX_MOVEMENT
  ∧ 1 ≤ pickNumber pick ≤ numberOfTeams config.

Section Round.
Context `{Engine}.

Lemma assignTeams_Ok config roundNumber shuffledTeams picks assignedPositions s result s' :
  assignTeams config roundNumber shuffledTeams picks assignedPositions s
  = (Ok result, s') →
  ∃ new, result = picks ++ new
    ∧ originalPosition <$> new = Entry.originalPosition <$> shuffledTeams
    ∧ teamId <$> new = Entry.teamId <$> shuffledTeams
    ∧ Forall (assigned config roundNumber) new
    ∧ Forall (λ pick, pickNumber pick ∉ assignedPositions) new
    ∧ NoDup (pickNumber <$> new).
Proof.
  revert picks assignedPositions s.
  induction shuffledTeams as [|team rest IH]; intros picks assignedPositions s; simpl.
  - intros [= <- <-]. exists []. rewrite app_nil_r. repeat split; constructor.
  - case_decide; [done|]. unfold bind.
    destruct (weightedRandomSelection _ _ _ s) as [[selectedPosition|e] s1] eqn:Hsel;
      [|done].
    intros Hrest. apply IH in Hrest as (new & -> & Hop & Hid & Hall & Hfresh & Hnd).
    apply weightedRandomSelection_Ok in Hsel.
    apply elem_of_selectionCandidates in Hsel as [Havail Hwin].
    apply list_elem_of_filter in Havail as [Hfree Hseq].
    apply elem_of_seqZ in Hseq.
    eexists (_ :: new). rewrite <-app_assoc. split; [done|].
    split; [by rewrite !fmap_cons, Hop|]. split; [by rewrite !fmap_cons, Hid|].
    split; [|split].
    + constructor; [|done]. unfold assigned, MAX_MOVEMENT; simpl. lia.
    + constructor; [done|]. eapply Forall_impl; [exact Hfresh|].
      simpl. intros pick Hpick Hin. apply Hpick, elem_of_union. by right.
    + rewrite fmap_cons. apply NoDup_cons. split; [|done]. simpl.
      intros (pick & -> & Hin)%list_elem_of_fmap.
      rewrite Forall_forall in Hfresh. apply (Hfresh pick Hin), elem_of_union.
      left. by apply elem_of_singleton.
Qed.

(** A turn of the loop that returns leaves sorted picks that satisfy
    [assigned] and have distinct pick numbers, one pick for each team of the
    shuffled list. *)
Lemma attempt_Some config roundNumber initialOrder s picks s' :
  attempt config roundNumber initialOrder s = (Some picks, s') →
  Forall (assigned config roundNumber) picks
  ∧ NoDup (pickNumber <$> picks)
  ∧ Sorted Z.le (pickNumber <$> picks)
  ∧ ∃ teams,
      Forall2 (λ originalPosition team,
                 teamIdAt config originalPosition = Ok (Entry.teamId team)
                 ∧ Entry.originalPosition team = originalPosition)
        initialOrder teams
      ∧ (originalPosition <$> picks) ≡ₚ (Entry.originalPosition <$> (shuffle teams s).1).
Proof.
  unfold attempt, attemptBody, bind, lift, ret.
  destruct (mapOutcome _ initialOrder) as [teams|] eqn:Hteams; [|done].
  destruct (assignTeams _ _ _ _ _ _) as [[result|e] s1] eqn:Hassign; [|done].
  destruct (forallb _ result); [|done]. intros [= <- <-].
  apply assignTeams_Ok in Hassign as (new & -> & Hop & _ & Hall & _ & Hnd).
  simpl. split; [by apply sortByKey_Forall|].
  split; [by rewrite sortByKey_Permutation|].
  split; [apply sortByKey_Sorted|].
  exists teams. split.
  - apply mapOutcome_Ok in Hteams. eapply Forall2_impl; [exact Hteams|].
    simpl. intros originalPosition team.
    destruct (teamIdAt config originalPosition); [|done]. by intros [= <-].
  - by rewrite sortByKey_Permutation, Hop.
Qed.

(** A loop that returns picks returns those of one of its turns. *)
Lemma attemptLoop_Some remaining config roundNumber initialOrder s picks s' :
  attemptLoop remaining config roundNumber initialOrder s = (Some picks, s') →
  ∃ s0, attempt config roundNumber initialOrder s0 = (Some picks, s').
Proof.
  revert s. induction remaining as [|remaining IH]; intros s; simpl; [done|].
  destruct (attempt config roundNumber initialOrder s) as [[picks'|] s1] eqn:Ha.
  - intros [= <- <-]. by exists s.
  - apply IH.
Qed.

End Round.

Lemma sortRandom_Permutation {A} (random : nat → Qc) (arr : list A) s :
  (sortRandom random arr s).1 ≡ₚ arr.
Proof.
  assert (∀ (x : A) sorted s, (insertRandom random x sorted s).1 ≡ₚ x :: sorted) as Hins.
  { intros x sorted. induction sorted as [|y rest IH]; intros s0; simpl; [done|].
    case_decide; simpl; [done|]. rewrite IH. apply Permutation_swap. }
  revert s. induction arr as [|x rest IH]; intros s; simpl; [done|].
  by rewrite Hins, IH.
Qed.

#[local] Instance sampleEngine_lawful : LawfulEngine sampleEngine.
Proof. intros A l s. apply sortRandom_Permutation. Qed.

Lemma defaultConfig_wellFormed : wellFormed defaultConfig.
Proof.
  split; [done|]. split; [|compute_done].
  intros p Hp. revert p Hp. apply Forall_forall. compute_done.
Qed.

Section RoundProperties.
Context `{Engine}.

Lemma hasTeams_noMovement config roundNumber initialOrder :
  hasTeams config initialOrder →
  ∃ picks, noMovement config roundNumber initialOrder
             = Ok (sortByKey pickNumber picks)
    ∧ Forall2 (λ originalPosition pick,
                 ∃ teamId, teamIdAt config originalPosition = Ok teamId
                           ∧ pick = unmoved roundNumber originalPosition teamId)
        initialOrder picks.
Proof.
  intros Hteams. unfold noMovement.
  destruct (mapOutcome _ initialOrder) as [picks|e] eqn:Hmap.
  - exists picks. split; [done|]. apply mapOutcome_Ok in Hmap.
    eapply Forall2_impl; [exact Hmap|]. simpl. intros originalPosition pick.
    destruct (teamIdAt config originalPosition) as [teamId|]; [|done].
    intros [= <-]. by exists teamId.
  - apply mapOutcome_Throw in Hmap as (originalPosition & Hin & Hthrow).
    destruct (teamIdAt_Ok config originalPosition) as [teamId Hid]; [by apply Hteams|].
    by rewrite Hid in Hthrow.
Qed.

Lemma noMovement_assigned config roundNumber initialOrder picks :
  noMovement config roundNumber initialOrder = Ok picks →
  Forall (λ pick, round pick = roundNumber
                  ∧ movement pick = pickNumber pick - originalPosition pick
                  ∧ Z.abs (movement pick) ≤ MAX_MOVEMENT) picks
  ∧ length picks = length initialOrder.
Proof.
  unfold noMovement.
  destruct (mapOutcome _ initialOrder) as [picks'|e] eqn:Hmap; [|done].
  intros [= <-]. apply mapOutcome_Ok in Hmap. split.
  - apply sortByKey_Forall. induction Hmap as [|p pick ?? Hp _ IH]; constructor; [|done].
    destruct (teamIdAt config p); [|done]. injection Hp as <-.
    unfold MAX_MOVEMENT. simpl. lia.
  - rewrite sortByKey_length. symmetry. by eapply Forall2_length.
Qed.

Lemma allAttemptsFail_attemptLoop n config roundNumber initialOrder s :
  allAttemptsFail n config roundNumber initialOrder s
  ↔ (attemptLoop n config roundNumber initialOrder s).1 = None.
Proof.
  revert s. induction n as [|n IH]; intros s; simpl; [done|].
  destruct (attempt config roundNumber initialOrder s) as [[picks|] s1]; simpl.
  - split; [by intros [? _]|done].
  - rewrite IH. tauto.
Qed.

End RoundProperties.

(** [C1] For a well-formed configuration of [N] teams and an initial order
    that is a permutation of [1..N], [runLotteryRound] returns picks whose
    pick numbers, read in the order of the returned list, are exactly
    [1, 2, ..., N]; so each of [1..N] occurs once. *)
Theorem runLotteryRound_permutation {E : Engine} `{!LawfulEngine E}
    (config : DraftConfig) (roundNumber : Z) (initialOrder : list Z) (s : nat) :
  wellFormed config →
  initialOrder ≡ₚ seqZ 1 (numberOfTeams config) →
  ∃ picks s',
    runLotteryRound config roundNumber initialOrder s = (Ok picks, s')
    ∧ pickNumber <$> picks = seqZ 1 (numberOfTeams config)
    ∧ NoDup (pickNumber <$> picks).
Proof.
  intros (HN & Hteams & _) Horder.
  assert (∀ picks, pickNumber <$> picks = seqZ 1 (numberOfTeams config) →
                   NoDup (pickNumber <$> picks)) as Hnodup.
  { intros picks ->. apply NoDup_seqZ. }
  unfold runLotteryRound.
  destruct (attemptLoop _ _ _ _ _) as [[picks|] s'] eqn:Hloop.
  - exists picks, s'. split; [done|].
    apply attemptLoop_Some in Hloop as [s0 Hattempt].
    apply attempt_Some in Hattempt
      as (Hall & Hnd & Hsorted & teams & Hteams' & Hperm).
    assert (pickNumber <$> picks = seqZ 1 (numberOfTeams config)) as Heq; [|by auto].
    apply (Sorted_unique Z.le); [done|apply Sorted_seqZ|].
    apply submseteq_length_Permutation.
    + apply NoDup_submseteq; [done|].
      intros pos (pick & -> & Hin)%list_elem_of_fmap.
      rewrite Forall_forall in Hall. destruct (Hall pick Hin) as (_ & _ & _ & Hrange).
      apply elem_of_seqZ. lia.
    + rewrite <-Horder, length_fmap.
      rewrite <-(length_fmap originalPosition), Hperm, length_fmap.
      rewrite (shuffle_Permutation _ teams s0).
      apply Forall2_length in Hteams'. lia.
  - destruct (hasTeams_noMovement config roundNumber initialOrder)
      as (picks & -> & Hpicks).
    { intros p Hp. apply Hteams. by rewrite <-Horder. }
    exists (sortByKey pickNumber picks), s'. split; [done|].
    assert (pickNumber <$> picks = initialOrder) as Hkeys.
    { clear -Hpicks. induction Hpicks as [|p pick ?? (teamId & _ & ->) _ IH]; [done|].
      rewrite fmap_cons, IH. done. }
    assert (pickNumber <$> sortByKey pickNumber picks = seqZ 1 (numberOfTeams config))
      as Heq; [|by auto].
    apply sortByKey_seqZ. by rewrite Hkeys.
Qed.

Lemma runLotteryRound_permutation_witness :
  ∃ picks s',
    @runLotteryRound sampleEngine defaultConfig 1 (reverse (seqZ 1 10)) 0%nat
    = (Ok picks, s')
    ∧ pickNumber <$> picks = seqZ 1 (numberOfTeams defaultConfig)
    ∧ NoDup (pickNumber <$> picks).
Proof.
  apply (@runLotteryRound_permutation sampleEngine sampleEngine_lawful).
  - exact defaultConfig_wellFormed.
  - apply reverse_Permutation.
Defined.

(** [C6], as the code has it: when every one of the 1000 attempts fails and
    [config.teams] has a team for every entry of the initial order,
    [runLotteryRound] returns one pick per entry of the initial order, each
    with its pick number equal to its original position, movement 0, the
    round number and the team of that position, and the list is sorted
    ascending by position. *)
Theorem runLotteryRound_fallback `{Engine}
    (config : DraftConfig) (roundNumber : Z) (initialOrder : list Z) (s : nat) :
  allAttemptsFail MAX_ATTEMPTS config roundNumber initialOrder s →
  hasTeams config initialOrder →
  ∃ picks s',
    runLotteryRound config roundNumber initialOrder s = (Ok picks, s')
    ∧ originalPosition <$> picks ≡ₚ initialOrder
    ∧ Forall (λ pick, pickNumber pick = originalPosition pick
                      ∧ movement pick = 0
                      ∧ round pick = roundNumber
                      ∧ teamIdAt config (originalPosition pick) = Ok (teamId pick))
        picks
    ∧ Sorted Z.le (pickNumber <$> picks).
Proof.
  intros Hfail Hteams. apply allAttemptsFail_attemptLoop in Hfail.
  unfold runLotteryRound.
  destruct (attemptLoop _ _ _ _ _) as [[picks|] s']; [done|].
  destruct (hasTeams_noMovement config roundNumber initialOrder Hteams)
    as (picks & -> & Hpicks).
  exists (sortByKey pickNumber picks), s'. split; [done|]. clear Hteams Hfail.
  split; [|split; [|apply sortByKey_Sorted]].
  - rewrite sortByKey_Permutation.
    induction Hpicks as [|p pick ?? (teamId & _ & ->) _ IH]; [done|].
    rewrite fmap_cons, IH. done.
  - apply sortByKey_Forall.
    induction Hpicks as [|p pick ?? (teamId & Hid & ->) _ IH]; constructor; done.
Qed.

(** Three teams and an empty odds table: every selection throws, and the
    round falls back to no movement. *)
Lemma runLotteryRound_fallback_witness :
  let config := mkConfig 3 1 (sampleTeam <$> seqZ 1 3) [] 3 2024 in
  @allAttemptsFail sampleEngine MAX_ATTEMPTS config 1 [2; 3; 1] 0%nat
  ∧ ∃ picks s',
      @runLotteryRound sampleEngine config 1 [2; 3; 1] 0%nat = (Ok picks, s')
      ∧ originalPosition <$> picks ≡ₚ [2; 3; 1]
      ∧ Forall (λ pick, pickNumber pick = originalPosition pick
                        ∧ movement pick = 0
                        ∧ round pick = 1
                        ∧ teamIdAt config (originalPosition pick) = Ok (teamId pick))
          picks
      ∧ Sorted Z.le (pickNumber <$> picks).
Proof.
  intros config.
  assert (@allAttemptsFail sampleEngine MAX_ATTEMPTS config 1 [2; 3; 1] 0%nat) as Hfail.
  { apply allAttemptsFail_attemptLoop. vm_compute. reflexivity. }
  split; [exact Hfail|].
  apply (@runLotteryRound_fallback sampleEngine config 1 [2; 3; 1] 0%nat Hfail).
  intros p Hp. revert p Hp. apply Forall_forall. compute_done.
Defined.

(** [C6], refuted as stated: two teams configured but only one team listed.
    Every attempt fails, reading the team of position 2, and the fallback
    fails the same way: the [TypeError] escapes. *)
Lemma runLotteryRound_fallback_throws :
  let config :=
    mkConfig 2 1 [sampleTeam 1] [mkOdds 2 (decimal 600 10); mkOdds 1 (decimal 400 10)]
      3 2024 in
  @allAttemptsFail sampleEngine MAX_ATTEMPTS config 1 [1; 2] 0%nat
  ∧ @runLotteryRound sampleEngine config 1 [1; 2] 0%nat = (Throw TypeError, 0%nat).
Proof.
  split; [apply allAttemptsFail_attemptLoop|]; vm_compute; reflexivity.
Qed.

(** ** All rounds *)

Lemma validateDraftResults_valid picks :
  Forall (λ pick, Z.abs (movement pick) ≤ MAX_MOVEMENT) picks →
  valid (validateDraftResults picks) = true.
Proof.
  intros Hall. unfold validateDraftResults; simpl.
  apply bool_decide_eq_true.
  match goal with |- length (foldl ?f _ _) = _ =>
    assert (∀ errors, foldl f errors picks = errors) as Hsame end.
  { induction Hall as [|pick picks Hpick _ IH]; intros errors; simpl; [done|].
    case_decide; [lia|]. apply IH. }
  by rewrite Hsame.
Qed.

Section AllRounds.
Context `{Engine}.

Lemma runLotteryRound_Ok config roundNumber initialOrder s picks s' :
  runLotteryRound config roundNumber initialOrder s = (Ok picks, s') →
  Forall (λ pick, round pick = roundNumber ∧ withinMovement pick) picks.
Proof.
  unfold runLotteryRound.
  destruct (attemptLoop _ _ _ _ _) as [[picks'|] s1] eqn:Hloop.
  - intros [= <- <-]. apply attemptLoop_Some in Hloop as [s0 Hattempt].
    apply attempt_Some in Hattempt as (Hall & _).
    eapply Forall_impl; [exact Hall|]. unfold assigned, withinMovement. tauto.
  - intros [= Hno <-]. apply noMovement_assigned in Hno as [Hall _].
    eapply Forall_impl; [exact Hall|]. unfold withinMovement. tauto.
Qed.

Lemma runLotteryRound_Throw config roundNumber initialOrder s e s' :
  runLotteryRound config roundNumber initialOrder s = (Throw e, s') →
  e = TypeError ∧ ¬ hasTeams config initialOrder.
Proof.
  unfold runLotteryRound.
  destruct (attemptLoop _ _ _ _ _) as [[picks'|] s1]; [done|].
  intros [= Hno <-]. split.
  - unfold noMovement in Hno.
    destruct (mapOutcome _ initialOrder) as [|e'] eqn:Hmap; [done|].
    injection Hno as ->. apply mapOutcome_Throw in Hmap as (p & _ & Hp).
    destruct (teamIdAt config p) eqn:Hid; [done|]. injection Hp as <-.
    by eapply teamIdAt_Throw.
  - intros Hteams.
    destruct (hasTeams_noMovement config roundNumber initialOrder Hteams)
      as (picks & Heq & _). congruence.
Qed.

Lemma runLotteryRound_length `{!LawfulEngine H} config roundNumber initialOrder s picks s' :
  runLotteryRound config roundNumber initialOrder s = (Ok picks, s') →
  length picks = length initialOrder.
Proof.
  unfold runLotteryRound.
  destruct (attemptLoop _ _ _ _ _) as [[picks'|] s1] eqn:Hloop.
  - intros [= <- <-]. apply attemptLoop_Some in Hloop as [s0 Hattempt].
    apply attempt_Some in Hattempt as (_ & _ & _ & teams & Hteams & Hperm).
    rewrite <-(length_fmap originalPosition), Hperm, length_fmap.
    rewrite (shuffle_Permutation _ teams s0). symmetry. by eapply Forall2_length.
  - intros [= Hno <-]. by apply noMovement_assigned in Hno as [_ Hlen].
Qed.

(** The loop over the rounds: what it returns and what it can throw. *)
Lemma roundsLoop_spec config initialOrder rounds allPicks s :
  match roundsLoop config initialOrder rounds allPicks s with
  | (Ok picks, _) =>
      ∃ new, picks = allPicks ++ new
             ∧ Forall withinMovement new
             ∧ Forall (λ pick, round pick ∈ rounds) new
  | (Throw e, _) => e = TypeError ∧ ¬ hasTeams config initialOrder
  end.
Proof.
  revert allPicks s.
  induction rounds as [|round rest IH]; intros allPicks s; cbn [roundsLoop].
  - exists []. rewrite app_nil_r. repeat split; constructor.
  - unfold bind.
    destruct (runLotteryRound config round initialOrder s) as [[roundPicks|e] s1] eqn:Hround.
    + apply runLotteryRound_Ok in Hround.
      rewrite validateDraftResults_valid; cbn [negb].
      2:{ eapply Forall_impl; [exact Hround|]. unfold withinMovement. tauto. }
      specialize (IH (allPicks ++ roundPicks) s1).
      destruct (roundsLoop _ _ rest _ s1) as [[picks|e] s2]; [|done].
      destruct IH as (new & -> & Hmove & Hrounds).
      exists (roundPicks ++ new). rewrite app_assoc. split; [done|].
      split; apply Forall_app; split.
      * eapply Forall_impl; [exact Hround|]. simpl. by intros pick [_ ?].
      * done.
      * eapply Forall_impl; [exact Hround|]. simpl. intros pick [-> _]. left.
      * eapply Forall_impl; [exact Hrounds|]. simpl. intros pick Hin. by right.
    + by eapply runLotteryRound_Throw.
Qed.

Lemma roundsLoop_rounds `{!LawfulEngine H} config initialOrder rounds allPicks s picks s' :
  roundsLoop config initialOrder rounds allPicks s = (Ok picks, s') →
  round <$> picks
  = (round <$> allPicks) ++ (rounds ≫= replicate (length initialOrder)).
Proof.
  revert allPicks s.
  induction rounds as [|r rest IH]; intros allPicks s; cbn [roundsLoop].
  - intros [= <- <-]. by rewrite app_nil_r.
  - unfold bind.
    destruct (runLotteryRound config r initialOrder s) as [[roundPicks|e] s1] eqn:Hround;
      [|done].
    destruct (negb _); [done|]. intros Hrest. apply IH in Hrest as ->.
    assert (round <$> roundPicks = replicate (length initialOrder) r)
      as Hblock.
    { rewrite <-(runLotteryRound_length _ _ _ _ _ _ Hround).
      apply runLotteryRound_Ok in Hround. clear -Hround.
      induction Hround as [|pick picks [Hpick _] _ IH]; [done|].
      by rewrite fmap_cons, IH, Hpick. }
    rewrite fmap_app, <-app_assoc, Hblock. done.
Qed.

End AllRounds.

Lemma append_assoc (a b c : string) : (a +:+ b) +:+ c = a +:+ b +:+ c.
Proof.
  induction a as [|ch a IH]; [done|].
  change (String ch ((a +:+ b) +:+ c) = String ch (a +:+ b +:+ c)). by rewrite IH.
Qed.

Lemma lengthMismatch_contains given expected :
  contains (lengthMismatch given expected) (pretty given)
  ∧ contains (lengthMismatch given expected) (pretty expected).
Proof.
  unfold lengthMismatch. split.
  - by eexists "Initial order length (", _.
  - eexists ("Initial order length (" +:+ pretty given
             +:+ ") must match number of teams ("), ")".
    by rewrite !append_assoc.
Qed.

(** With the lengths equal, [runCompleteLottery] is the loop over the rounds:
    it returns when every entry of the initial order has a team, and what
    it can throw is the [TypeError] of a missing team. *)
Lemma runCompleteLottery_equal_length `{Engine}
    (config : DraftConfig) (initialOrder : list Z) (s : nat) :
  Z.of_nat (length initialOrder) = numberOfTeams config →
  (hasTeams config initialOrder →
   ∃ picks s', runCompleteLottery config initialOrder s = (Ok picks, s'))
  ∧ (∀ e s', runCompleteLottery config initialOrder s = (Throw e, s') →
             e = TypeError ∧ ¬ hasTeams config initialOrder).
Proof.
  intros Heq.
  pose proof (roundsLoop_spec config initialOrder
                (seqZ 1 (numberOfRounds config)) [] s) as Hloop.
  unfold runCompleteLottery. case_decide; [done|]. split.
  - intros Hteams.
    destruct (roundsLoop _ _ _ _ _) as [[picks|e] s']; [by eexists _, _|].
    by destruct Hloop.
  - intros e s' Hrun. by rewrite Hrun in Hloop.
Qed.

(** [C2] Every pick returned by [runLotteryRound], and so every pick
    returned by [runCompleteLottery], has a movement equal to its pick
    number less its original position and of absolute value at most 2,
    for every configuration and initial order on which they return. *)
Theorem movement_within_two `{Engine}
    (config : DraftConfig) (initialOrder : list Z) (s : nat) :
  (∀ roundNumber picks s',
      runLotteryRound config roundNumber initialOrder s = (Ok picks, s') →
      Forall (λ pick, movement pick = pickNumber pick - originalPosition pick
                      ∧ Z.abs (movement pick) ≤ 2) picks)
  ∧ (∀ picks s',
        runCompleteLottery config initialOrder s = (Ok picks, s') →
        Forall (λ pick, movement pick = pickNumber pick - originalPosition pick
                        ∧ Z.abs (movement pick) ≤ 2) picks).
Proof.
  split.
  - intros roundNumber picks s' Hround. apply runLotteryRound_Ok in Hround.
    eapply Forall_impl; [exact Hround|]. by intros pick [_ ?].
  - intros picks s'. unfold runCompleteLottery. case_decide; [done|].
    pose proof (roundsLoop_spec config initialOrder
                  (seqZ 1 (numberOfRounds config)) [] s) as Hloop.
    intros Hrun. rewrite Hrun in Hloop. by destruct Hloop as (new & -> & Hmove & _).
Qed.

(** The default configuration, ranked 1 to 10, on the sample engine. *)
Lemma movement_within_two_witness :
  ∃ picks s',
    @runCompleteLottery sampleEngine defaultConfig (seqZ 1 10) 0%nat = (Ok picks, s')
    ∧ length picks = 50%nat
    ∧ Forall (λ pick, movement pick = pickNumber pick - originalPosition pick
                      ∧ Z.abs (movement pick) ≤ 2) picks.
Proof.
  destruct (@runCompleteLottery sampleEngine defaultConfig (seqZ 1 10) 0%nat)
    as [[picks|e] s'] eqn:Hrun; [|by vm_compute in Hrun].
  exists picks, s'. split; [done|]. split.
  - vm_compute in Hrun. by injection Hrun as <- _.
  - exact (proj2 (@movement_within_two sampleEngine defaultConfig (seqZ 1 10) 0%nat)
             picks s' Hrun).
Defined.

(** [C3], as the code has it: [runCompleteLottery] throws the
    length-mismatch error whenever the length of the initial order differs
    from [config.numberOfTeams], and the message contains both numbers.
    When the two are equal it returns a pick list provided [config.teams]
    has a team for every entry of the initial order; the one error that can
    escape then is the [TypeError] of reading a team that is not there. *)
Theorem runCompleteLottery_errors `{Engine}
    (config : DraftConfig) (initialOrder : list Z) (s : nat) :
  (Z.of_nat (length initialOrder) ≠ numberOfTeams config →
   runCompleteLottery config initialOrder s
   = (Throw (Error (lengthMismatch (Z.of_nat (length initialOrder))
                      (numberOfTeams config))), s))
  ∧ contains (lengthMismatch (Z.of_nat (length initialOrder)) (numberOfTeams config))
      (pretty (Z.of_nat (length initialOrder)))
  ∧ contains (lengthMismatch (Z.of_nat (length initialOrder)) (numberOfTeams config))
      (pretty (numberOfTeams config))
  ∧ (Z.of_nat (length initialOrder) = numberOfTeams config →
     hasTeams config initialOrder →
     ∃ picks s', runCompleteLottery config initialOrder s = (Ok picks, s'))
  ∧ (Z.of_nat (length initialOrder) = numberOfTeams config →
     ∀ e s', runCompleteLottery config initialOrder s = (Throw e, s') →
             e = TypeError ∧ ¬ hasTeams config initialOrder).
Proof.
  split; [|split; [|split; [|split]]].
  - intros Hne. unfold runCompleteLottery. by case_decide.
  - apply lengthMismatch_contains.
  - apply lengthMismatch_contains.
  - intros Heq. by apply runCompleteLottery_equal_length.
  - intros Heq. by apply runCompleteLottery_equal_length.
Qed.

(** An initial order of 5 for the 10 teams of the default configuration is
    refused with the message of the test suite; the order 1..10 is run. *)
Lemma runCompleteLottery_errors_witness :
  @runCompleteLottery sampleEngine defaultConfig (seqZ 1 5) 0%nat
  = (Throw (Error "Initial order length (5) must match number of teams (10)"), 0%nat)
  ∧ ∃ picks s',
      @runCompleteLottery sampleEngine defaultConfig (seqZ 1 10) 0%nat = (Ok picks, s').
Proof.
  split.
  - apply (proj1 (@runCompleteLottery_errors sampleEngine defaultConfig (seqZ 1 5) 0%nat)).
    done.
  - apply (@runCompleteLottery_errors sampleEngine defaultConfig (seqZ 1 10) 0%nat).
    + done.
    + apply defaultConfig_wellFormed.
Defined.

(** [C3], refuted as stated: two teams configured, one team listed.  The
    initial order has the configured length, and a [TypeError] escapes. *)
Lemma runCompleteLottery_missing_team :
  let config :=
    mkConfig 2 1 [sampleTeam 1] [mkOdds 2 (decimal 600 10); mkOdds 1 (decimal 400 10)]
      3 2024 in
  Z.of_nat (length [1; 2]) = numberOfTeams config
  ∧ @runCompleteLottery sampleEngine config [1; 2] 0%nat = (Throw TypeError, 0%nat).
Proof. split; vm_compute; reflexivity. Qed.

Lemma filter_round_length (picks : list DraftPick) r :
  length (filter (λ pick, round pick = r) picks)
  = length (filter (λ x, x = r) (round <$> picks)).
Proof.
  induction picks as [|pick picks IH]; [done|].
  rewrite fmap_cons, !filter_cons. repeat case_decide; simpl; congruence.
Qed.

Lemma rounds_block_count (rounds : list Z) (n : nat) r :
  NoDup rounds →
  length (filter (λ x, x = r) (rounds ≫= replicate n))
  = if decide (r ∈ rounds) then n else 0%nat.
Proof.
  assert (∀ x, length (filter (λ y, y = r) (replicate n x))
               = if decide (x = r) then n else 0%nat) as Hblock.
  { intros x. induction n as [|n IH]; simpl; [by case_decide|].
    rewrite filter_cons. destruct (decide (x = r)); simpl; by rewrite IH. }
  induction 1 as [|x rounds Hx _ IH]; [done|].
  rewrite bind_cons, filter_app, length_app, Hblock, IH.
  destruct (decide (x = r)) as [->|Hne].
  - rewrite (decide_True _ _ (list_elem_of_here _ _)).
    by rewrite decide_False by done.
  - destruct (decide (r ∈ rounds)) as [Hin|Hnin].
    + by rewrite decide_True by by right.
    + rewrite decide_False; [done|]. by intros [->|?]%elem_of_cons.
Qed.

(** [C7] For a well-formed configuration of [N] teams and [R] rounds and
    an initial order that is a permutation of [1..N], [runCompleteLottery]
    returns [N * R] picks; their round numbers, in the order of the list,
    are [N] times 1, then [N] times 2, and so on up to [R]; so the picks of
    a round come before those of the next, each round of [1..R] has exactly
    [N] picks, and no other round number occurs. *)
Theorem runCompleteLottery_rounds {E : Engine} `{!LawfulEngine E}
    (config : DraftConfig) (initialOrder : list Z) (s : nat) :
  wellFormed config →
  0 ≤ numberOfRounds config →
  initialOrder ≡ₚ seqZ 1 (numberOfTeams config) →
  ∃ picks s',
    runCompleteLottery config initialOrder s = (Ok picks, s')
    ∧ Z.of_nat (length picks) = numberOfTeams config * numberOfRounds config
    ∧ round <$> picks
      = seqZ 1 (numberOfRounds config) ≫= replicate (Z.to_nat (numberOfTeams config))
    ∧ ∀ r, length (filter (λ pick, round pick = r) picks)
           = if decide (1 ≤ r ≤ numberOfRounds config)
             then Z.to_nat (numberOfTeams config) else 0%nat.
Proof.
  intros (HN & Hteams & _) HR Horder.
  assert (length initialOrder = Z.to_nat (numberOfTeams config)) as Hlen
    by by rewrite Horder, length_seqZ.
  destruct (runCompleteLottery_equal_length config initialOrder s) as [Htotal _];
    [lia|].
  destruct Htotal as (picks & s' & Hrun).
  { intros p Hp. apply Hteams. by rewrite <-Horder. }
  exists picks, s'. split; [done|].
  unfold runCompleteLottery in Hrun. case_decide; [lia|].
  apply roundsLoop_rounds in Hrun. simpl in Hrun. rewrite Hlen in Hrun.
  assert (∀ r, length (filter (λ pick, round pick = r) picks)
               = if decide (1 ≤ r ≤ numberOfRounds config)
                 then Z.to_nat (numberOfTeams config) else 0%nat) as Hcount.
  { intros r. rewrite filter_round_length, Hrun.
    rewrite rounds_block_count by apply NoDup_seqZ.
    destruct (decide (r ∈ seqZ 1 (numberOfRounds config))) as [Hin|Hnin];
      rewrite elem_of_seqZ in *; case_decide; (done || lia). }
  split; [|by split].
  rewrite <-(length_fmap round), Hrun.
  rewrite <-(Z2Nat.id (numberOfTeams config)) at 2 by lia.
  generalize (Z.to_nat (numberOfTeams config)) as n.
  generalize (numberOfRounds config) HR. clear. intros R HR n.
  rewrite <-(Z2Nat.id R) by done. generalize (Z.to_nat R). clear. intros k.
  induction k as [|k IH]; [by rewrite Z.mul_0_r|].
  rewrite seqZ_S, bind_app, length_app, Nat2Z.inj_add, IH.
  simpl. rewrite app_nil_r, length_replicate. lia.
Qed.

Lemma runCompleteLottery_rounds_witness :
  ∃ picks s',
    @runCompleteLottery sampleEngine defaultConfig (reverse (seqZ 1 10)) 0%nat
    = (Ok picks, s')
    ∧ Z.of_nat (length picks) = 10 * 5
    ∧ round <$> picks = seqZ 1 5 ≫= replicate 10
    ∧ ∀ r, length (filter (λ pick, round pick = r) picks)
           = if decide (1 ≤ r ≤ 5) then 10%nat else 0%nat.
Proof.
  apply (@runCompleteLottery_rounds sampleEngine sampleEngine_lawful defaultConfig).
  - exact defaultConfig_wellFormed.
  - done.
  - apply reverse_Permutation.
Defined.

(** * Further properties of the lottery *)

(** ** The admissible window *)

(** [X1] Among the positions [1..N], being within the window is a matter of
    distance only: [c] is admissible for [p] exactly when they are at most
    two places apart, so exactly when [p] is admissible for [c]; every
    position is admissible for itself; and a window never holds more than
    five positions. *)
Theorem getValidPositionRange_symmetric (p c N : Z) :
  1 ≤ p ≤ N → 1 ≤ c ≤ N →
  (inRange (getValidPositionRange p N) c ↔ Z.abs (c - p) ≤ 2)
  ∧ (inRange (getValidPositionRange p N) c ↔ inRange (getValidPositionRange c N) p)
  ∧ inRange (getValidPositionRange p N) p
  ∧ max (getValidPositionRange p N) - min (getValidPositionRange p N) ≤ 4.
Proof.
  unfold inRange, getValidPositionRange, MAX_MOVEMENT; simpl. lia.
Qed.

Lemma getValidPositionRange_symmetric_witness :
  (inRange (getValidPositionRange 9 10) 10 ↔ Z.abs (10 - 9) ≤ 2)
  ∧ (inRange (getValidPositionRange 9 10) 10 ↔ inRange (getValidPositionRange 10 10) 9)
  ∧ inRange (getValidPositionRange 9 10) 9
  ∧ max (getValidPositionRange 9 10) - min (getValidPositionRange 9 10) ≤ 4.
Proof. apply getValidPositionRange_symmetric; lia. Defined.

(** ** Weights *)




(** ** Validation *)

Lemma validateDraftResults_errors picks :
  errors (validateDraftResults picks)
  = (λ pick, "Team at original position " +:+ pretty (originalPosition pick)
             +:+ " moved " +:+ pretty (Z.abs (movement pick))
             +:+ " spots (max allowed: " +:+ pretty MAX_MOVEMENT +:+ ")")
    <$> filter (λ pick, Z.abs (movement pick) > MAX_MOVEMENT) picks.
Proof.
  unfold validateDraftResults; simpl.
  match goal with |- foldl ?f _ _ = ?g <$> _ =>
    assert (∀ errors, foldl f errors picks
                      = errors ++ (g <$> filter (λ pick, Z.abs (movement pick)
                                                         > MAX_MOVEMENT) picks))
      as Hgen end.
  { induction picks as [|pick picks IH]; intros errors; simpl.
    - by rewrite app_nil_r.
    - rewrite IH, filter_cons. case_decide; [|done].
      by rewrite fmap_cons, <-app_assoc. }
  apply Hgen.
Qed.

(** [X3] [validateDraftResults] reports one error for each pick that moved more
    than two places, in the order of the picks, each naming the original
    position and the distance moved; the result is valid exactly when no
    pick moved more than two places. *)
Theorem validateDraftResults_spec (picks : list DraftPick) :
  (valid (validateDraftResults picks) = true
   ↔ Forall (λ pick, Z.abs (movement pick) ≤ 2) picks)
  ∧ length (errors (validateDraftResults picks))
    = length (filter (λ pick, Z.abs (movement pick) > 2) picks)
  ∧ ∀ i message,
      errors (validateDraftResults picks) !! i = Some message →
      ∃ pick, filter (λ pick, Z.abs (movement pick) > 2) picks !! i = Some pick
              ∧ contains message (pretty (originalPosition pick))
              ∧ contains message ("moved " +:+ pretty (Z.abs (movement pick)) +:+ " spots").
Proof.
  pose proof (validateDraftResults_errors picks) as Herrors.
  split; [|split].
  - unfold validateDraftResults in *; simpl in *. rewrite bool_decide_eq_true, Herrors.
    rewrite length_fmap. unfold MAX_MOVEMENT. clear. induction picks as [|pick picks IH].
    + split; [constructor|done].
    + rewrite filter_cons, Forall_cons. case_decide; simpl.
      * split; [done|]. intros [? _]. lia.
      * rewrite IH. split; [|tauto]. intros ?. split; [lia|done].
  - by rewrite Herrors, length_fmap.
  - intros i message. rewrite Herrors, list_lookup_fmap.
    unfold MAX_MOVEMENT.
    destruct (filter _ picks !! i) as [pick|]; simpl; [|done].
    intros [= <-]. exists pick. split; [done|]. split.
    + by eexists "Team at original position ", _.
    + eexists ("Team at original position " +:+ pretty (originalPosition pick) +:+ " "),
              " (max allowed: 2)".
      rewrite !append_assoc. done.
Qed.

(** ** Draws *)

(** [X4] [weightedRandomSelection] never makes more than one draw: it makes
    exactly one when it has two or more candidates and finds the odds
    entry, and none otherwise; in particular none when it throws. *)
Theorem weightedRandomSelection_draws `{Engine}
    (availablePositions : list Z) (weightedSystem : list WeightedOdds)
    (originalPosition : Z) (s : nat) :
  let run := weightedRandomSelection availablePositions weightedSystem
               originalPosition s in
  (run.2 = s ∨ run.2 = S s)
  ∧ (run.2 = S s
     ↔ (2 ≤ length (selectionCandidates availablePositions weightedSystem
                      originalPosition))%nat
       ∧ is_Some (findOdds weightedSystem originalPosition))
  ∧ (throws run → run.2 = s).
Proof.
  cbv zeta. unfold weightedRandomSelection, throw, ret.
  destruct (selectionCandidates _ _ _) as [|first [|second rest]];
    cbn [snd length].
  - split; [by left|]. split; [|done]. split; [lia|]. intros [Hlen _]. lia.
  - split; [by left|]. split; [|done]. split; [lia|]. intros [Hlen _]. lia.
  - destruct (findOdds _ _) as [teamOdds|].
    + unfold bind, mathRandom. destruct (walk _ _ _); cbn [snd].
      all: split; [by right|]; split;
        [split; [|done]; intros _; split; [lia|done]|].
      all: intros (e & s' & He); discriminate.
    + cbn [snd]. split; [by left|]. split; [|done].
      split; [lia|]. intros [_ Hsome]. by destruct Hsome.
Qed.

(** ** One round: teams, errors and draws *)

Section RoundTeams.
Context `{Engine}.

Lemma assignTeams_entries config roundNumber shuffledTeams picks assignedPositions s
    result s' :
  assignTeams config roundNumber shuffledTeams picks assignedPositions s
  = (Ok result, s') →
  ∃ new, result = picks ++ new
    ∧ Forall (λ pick, Entry.mk (originalPosition pick) (teamId pick) ∈ shuffledTeams)
        new.
Proof.
  revert picks assignedPositions s.
  induction shuffledTeams as [|team rest IH]; intros picks assignedPositions s; simpl.
  - intros [= <- <-]. exists []. by rewrite app_nil_r.
  - case_decide; [done|]. unfold bind.
    destruct (weightedRandomSelection _ _ _ s) as [[selectedPosition|e] s1]; [|done].
    intros Hrest. apply IH in Hrest as (new & -> & Hall).
    eexists (_ :: new). rewrite <-app_assoc. split; [done|]. constructor.
    + simpl. destruct team. left.
    + eapply Forall_impl; [exact Hall|]. simpl. intros pick Hin. by right.
Qed.

Lemma attempt_Some_entries `{!LawfulEngine H} config roundNumber initialOrder s picks s' :
  attempt config roundNumber initialOrder s = (Some picks, s') →
  Forall (λ pick, teamIdAt config (originalPosition pick) = Ok (teamId pick)) picks
  ∧ originalPosition <$> picks ≡ₚ initialOrder.
Proof.
  intros Hattempt.
  pose proof (attempt_Some _ _ _ _ _ _ Hattempt)
    as (_ & _ & _ & teams' & Hteams' & Hperm).
  assert (Entry.originalPosition <$> teams' = initialOrder) as Hops.
  { clear -Hteams'. induction Hteams' as [|p team ?? [_ Hp] _ IH]; [done|].
    by rewrite fmap_cons, IH, Hp. }
  split; [|by rewrite Hperm, (shuffle_Permutation _ teams' s), Hops].
  revert Hattempt. unfold attempt, attemptBody, bind, lift, ret.
  destruct (mapOutcome _ initialOrder) as [teams|] eqn:Hteams; [|done].
  destruct (assignTeams _ _ _ _ _ _) as [[result|e] s1] eqn:Hassign; [|done].
  destruct (forallb _ result); [|done]. intros [= <- <-].
  apply assignTeams_entries in Hassign as (new & -> & Hall). simpl.
  apply sortByKey_Forall. eapply Forall_impl; [exact Hall|].
  simpl. intros pick Hin. rewrite (shuffle_Permutation _ teams s) in Hin.
  apply mapOutcome_Ok in Hteams. clear -Hteams Hin.
  induction Hteams as [|p team ?? Hp _ IH]; [by apply elem_of_nil in Hin|].
  apply elem_of_cons in Hin as [Heq|Hin]; [|by apply IH].
  destruct (teamIdAt config p) as [teamId'|] eqn:Hid; [|done].
  injection Hp as <-. injection Heq as -> ->. done.
Qed.

End RoundTeams.

(** [X5] Whenever [runLotteryRound] returns, on an engine whose sort returns a
    permutation, the picks are as many as the entries of the initial order
    and their original positions are those entries in some order: every
    entry gets exactly one pick.  Each pick carries the round number and the
    id of the team listed at its original position. *)
Theorem runLotteryRound_teams {E : Engine} `{!LawfulEngine E}
    (config : DraftConfig) (roundNumber : Z) (initialOrder : list Z) (s : nat)
    (picks : list DraftPick) (s' : nat) :
  runLotteryRound config roundNumber initialOrder s = (Ok picks, s') →
  originalPosition <$> picks ≡ₚ initialOrder
  ∧ length picks = length initialOrder
  ∧ Forall (λ pick, round pick = roundNumber
                    ∧ ∃ team, arrayGet (teams config) (originalPosition pick - 1)
                              = Some team
                              ∧ teamId pick = id team) picks.
Proof.
  intros Hrun.
  assert (Forall (λ pick, teamIdAt config (originalPosition pick) = Ok (teamId pick))
            picks
          ∧ originalPosition <$> picks ≡ₚ initialOrder) as [Hids Hperm].
  { revert Hrun. unfold runLotteryRound.
    destruct (attemptLoop _ _ _ _ _) as [[picks'|] s1] eqn:Hloop.
    - intros [= <- <-]. apply attemptLoop_Some in Hloop as [s0 Hattempt].
      by eapply attempt_Some_entries.
    - intros [= Hno <-]. unfold noMovement in Hno.
      destruct (mapOutcome _ initialOrder) as [picks'|] eqn:Hmap; [|done].
      injection Hno as <-. apply mapOutcome_Ok in Hmap.
      split; [apply sortByKey_Forall|rewrite sortByKey_Permutation]; clear -Hmap.
      + induction Hmap as [|p pick ?? Hp _ IH]; constructor; [|done].
        destruct (teamIdAt config p) eqn:Hid; [|done]. by injection Hp as <-.
      + induction Hmap as [|p pick ?? Hp _ IH]; [done|].
        destruct (teamIdAt config p) eqn:Hid; [|done]. injection Hp as <-.
        by rewrite fmap_cons, IH. }
  split; [done|]. split; [by rewrite <-Hperm, length_fmap|].
  apply runLotteryRound_Ok in Hrun.
  apply Forall_and. split.
  - eapply Forall_impl; [exact Hrun|]. by intros pick [? _].
  - eapply Forall_impl; [exact Hids|]. simpl. intros pick. unfold teamIdAt.
    destruct (arrayGet _ _) as [team|]; [|done]. intros [= <-]. by exists team.
Qed.

Lemma runLotteryRound_teams_witness :
  ∃ picks s',
    @runLotteryRound sampleEngine defaultConfig 3 (reverse (seqZ 1 10)) 0%nat
    = (Ok picks, s')
    ∧ originalPosition <$> picks ≡ₚ reverse (seqZ 1 10)
    ∧ length picks = 10%nat.
Proof.
  destruct (@runLotteryRound sampleEngine defaultConfig 3 (reverse (seqZ 1 10)) 0%nat)
    as [[picks|e] s'] eqn:Hrun; [|by vm_compute in Hrun].
  exists picks, s'. split; [done|].
  destruct (@runLotteryRound_teams sampleEngine sampleEngine_lawful defaultConfig 3
              (reverse (seqZ 1 10)) 0%nat picks s' Hrun) as (Hperm & Hlen & _).
  exact (conj Hperm Hlen).
Defined.

Lemma mapOutcome_fails {A B} (f : A → Outcome B) (arr : list A) x e :
  x ∈ arr → f x = Throw e → ∃ e', mapOutcome f arr = Throw e'.
Proof.
  intros Hin Hx. induction arr as [|y arr IH]; [by apply elem_of_nil in Hin|].
  simpl. destruct (f y) as [z|e'] eqn:Hy; [|by eexists].
  apply elem_of_cons in Hin as [->|Hin]; [congruence|].
  destruct (IH Hin) as [e' ->]. by eexists.
Qed.

Lemma not_hasTeams config initialOrder :
  ¬ hasTeams config initialOrder →
  ∃ originalPosition, originalPosition ∈ initialOrder
                      ∧ teamIdAt config originalPosition = Throw TypeError.
Proof.
  intros Hnot.
  assert (¬ Forall (λ p, is_Some (arrayGet (teams config) (p - 1))) initialOrder)
    as Hex by (rewrite Forall_forall; exact Hnot).
  apply not_Forall_Exists in Hex; [|apply _].
  apply Exists_exists in Hex as (p & Hin & Hp). exists p. split; [done|].
  simpl in Hp. unfold teamIdAt. destruct (arrayGet _ _) as [team|]; [|done].
  destruct Hp. by eexists.
Qed.

(** Without a team for some entry, every attempt stops before the shuffle
    and the fallback throws. *)
Lemma runLotteryRound_missing_team `{Engine} config roundNumber initialOrder s :
  ¬ hasTeams config initialOrder →
  ∃ e, runLotteryRound config roundNumber initialOrder s = (Throw e, s).
Proof.
  intros (p & Hin & Hp)%not_hasTeams.
  assert (∀ n s0, attemptLoop n config roundNumber initialOrder s0 = (None, s0))
    as Hloop.
  { intros n s0. induction n as [|n IH]; [done|]. cbn [attemptLoop].
    unfold attempt, attemptBody, bind, lift.
    destruct (mapOutcome_fails
                (λ originalPosition,
                   match teamIdAt config originalPosition with
                   | Ok teamId => Ok (Entry.mk originalPosition teamId)
                   | Throw e => Throw e
                   end) initialOrder p TypeError Hin) as [e' ->]; [by rewrite Hp|].
    exact IH. }
  unfold runLotteryRound. rewrite Hloop. unfold noMovement.
  destruct (mapOutcome_fails
              (λ originalPosition,
                 match teamIdAt config originalPosition with
                 | Ok teamId => Ok (unmoved roundNumber originalPosition teamId)
                 | Throw e => Throw e
                 end) initialOrder p TypeError Hin) as [e' He']; [by rewrite Hp|].
  unfold unmoved in He'. rewrite He'. by eexists.
Qed.

(** [X6] [runLotteryRound] throws exactly when [config.teams] has no team for
    some entry of the initial order.  What it throws then is a [TypeError],
    and it has made no draw: every attempt stopped before the shuffle. *)
Theorem runLotteryRound_throws_iff `{Engine}
    (config : DraftConfig) (roundNumber : Z) (initialOrder : list Z) (s : nat) :
  (throws (runLotteryRound config roundNumber initialOrder s)
   ↔ ¬ hasTeams config initialOrder)
  ∧ ∀ e s', runLotteryRound config roundNumber initialOrder s = (Throw e, s') →
            e = TypeError ∧ s' = s.
Proof.
  split.
  - split.
    + intros (e & s' & Hrun). by apply runLotteryRound_Throw in Hrun as [_ ?].
    + intros Hnot.
      destruct (runLotteryRound_missing_team config roundNumber initialOrder s Hnot)
        as [e He].
      by eexists _, _.
  - intros e s' Hrun.
    pose proof (runLotteryRound_Throw _ _ _ _ _ _ Hrun) as [-> Hnot].
    destruct (runLotteryRound_missing_team config roundNumber initialOrder s Hnot)
      as [e He].
    split; [done|]. congruence.
Qed.

(** ** All rounds: edges and validation *)

(** [X7] With an initial order of the configured length, [runCompleteLottery]
    throws exactly when there is at least one round to run and some entry
    of the initial order has no team.  With no round to run it returns the
    empty list and makes no draw. *)
Theorem runCompleteLottery_throws_iff `{Engine}
    (config : DraftConfig) (initialOrder : list Z) (s : nat) :
  Z.of_nat (length initialOrder) = numberOfTeams config →
  (throws (runCompleteLottery config initialOrder s)
   ↔ 1 ≤ numberOfRounds config ∧ ¬ hasTeams config initialOrder)
  ∧ (numberOfRounds config ≤ 0 →
     runCompleteLottery config initialOrder s = (Ok [], s)).
Proof.
  intros Hlen. unfold runCompleteLottery. case_decide; [done|].
  destruct (decide (numberOfRounds config ≤ 0)) as [HR|HR].
  - rewrite seqZ_nil by done. simpl. split; [|done]. split.
    + intros (e & s' & He). done.
    + lia.
  - split; [|lia]. rewrite seqZ_cons by lia. cbn [roundsLoop]. unfold bind.
    destruct (runLotteryRound config 1 initialOrder s) as [[roundPicks|e] s1] eqn:Hround.
    + assert (hasTeams config initialOrder) as Hteams.
      { destruct (decide (Forall (λ p, is_Some (arrayGet (teams config) (p - 1)))
                            initialOrder)) as [Hall|Hnall].
        - by rewrite Forall_forall in Hall.
        - destruct (runLotteryRound_missing_team config 1 initialOrder s)
            as [e He]; [|congruence].
          by rewrite Forall_forall in Hnall. }
      split; [|tauto]. intros (e & s' & Hthrow). exfalso.
      pose proof (roundsLoop_spec config initialOrder
                    (1 :: seqZ (Z.succ 1) (Z.pred (numberOfRounds config))) [] s)
        as Hspec.
      cbn [roundsLoop] in Hspec. unfold bind in Hspec.
      rewrite Hround, Hthrow in Hspec. by destruct Hspec.
    + split; [|by eexists _, _]. intros _. split; [lia|].
      by apply runLotteryRound_Throw in Hround as [_ ?].
Qed.

Lemma runCompleteLottery_throws_iff_witness :
  let config := mkConfig 2 0 [sampleTeam 1] [] 3 2024 in
  (throws (@runCompleteLottery sampleEngine config [1; 2] 0%nat)
   ↔ 1 ≤ numberOfRounds config ∧ ¬ hasTeams config [1; 2])
  ∧ (numberOfRounds config ≤ 0 →
     @runCompleteLottery sampleEngine config [1; 2] 0%nat = (Ok [], 0%nat)).
Proof.
  intros config.
  apply (@runCompleteLottery_throws_iff sampleEngine config [1; 2] 0%nat).
  reflexivity.
Defined.

(** [X8] Every pick list that [runLotteryRound] or [runCompleteLottery] returns
    passes [validateDraftResults] with no error: the check after each round
    in [runCompleteLottery] never fails. *)
Theorem validateDraftResults_accepts `{Engine}
    (config : DraftConfig) (initialOrder : list Z) (s : nat) :
  (∀ roundNumber picks s',
      runLotteryRound config roundNumber initialOrder s = (Ok picks, s') →
      validateDraftResults picks = mkValidation true [])
  ∧ (∀ picks s',
        runCompleteLottery config initialOrder s = (Ok picks, s') →
        validateDraftResults picks = mkValidation true []).
Proof.
  assert (∀ picks, Forall withinMovement picks →
                   validateDraftResults picks = mkValidation true []) as Hvalid.
  { intros picks Hall.
    assert (errors (validateDraftResults picks) = []) as Herrors.
    { rewrite validateDraftResults_errors.
      induction Hall as [|pick picks [_ Hpick] _ IH]; [done|].
      rewrite filter_cons. case_decide; [lia|done]. }
    unfold validateDraftResults in *. simpl in *. by rewrite Herrors. }
  split.
  - intros roundNumber picks s' Hrun. apply Hvalid.
    apply runLotteryRound_Ok in Hrun. eapply Forall_impl; [exact Hrun|].
    by intros pick [_ ?].
  - intros picks s'. unfold runCompleteLottery. case_decide; [done|].
    pose proof (roundsLoop_spec config initialOrder
                  (seqZ 1 (numberOfRounds config)) [] s) as Hloop.
    intros Hrun. rewrite Hrun in Hloop. destruct Hloop as (new & -> & Hmove & _).
    by apply Hvalid.
Qed.

Lemma validateDraftResults_accepts_witness :
  ∃ picks s',
    @runCompleteLottery sampleEngine defaultConfig (seqZ 1 10) 0%nat = (Ok picks, s')
    ∧ validateDraftResults picks = mkValidation true [].
Proof.
  destruct (@runCompleteLottery sampleEngine defaultConfig (seqZ 1 10) 0%nat)
    as [[picks|e] s'] eqn:Hrun; [|by vm_compute in Hrun].
  exists picks, s'. split; [exact eq_refl|].
  exact (proj2 (@validateDraftResults_accepts sampleEngine defaultConfig (seqZ 1 10)
                  0%nat) picks s' Hrun).
Defined.

(** * The store *)

Section StoreLists.
Context {Config : Type}.
Implicit Types (lotteries : list (DraftLottery.t Config)) (y : Z).

#[local] Abbreviation findYear y :=
  (List.find (λ lottery : DraftLottery.t Config,
                bool_decide (DraftLottery.year lottery = y))).
#[local] Abbreviation otherYears y :=
  (filter (λ lottery : DraftLottery.t Config, DraftLottery.year lottery ≠ y)).

Lemma findYear_app y lotteries1 lotteries2 :
  findYear y (lotteries1 ++ lotteries2)
  = match findYear y lotteries1 with
    | Some lottery => Some lottery
    | None => findYear y lotteries2
    end.
Proof.
  induction lotteries1 as [|l ls IH]; simpl; [done|]. by case_bool_decide.
Qed.

Lemma findYear_otherYears y y' lotteries :
  findYear y (otherYears y' lotteries)
  = if decide (y = y') then None else findYear y lotteries.
Proof.
  induction lotteries as [|l ls IH]; [by case_decide|].
  rewrite filter_cons. cbn [List.find].
  destruct (decide (DraftLottery.year l ≠ y')) as [Hne|Heq%dec_stable].
  - cbn [List.find]. case_bool_decide; [|done]. by rewrite decide_False by congruence.
  - rewrite IH. case_decide; [done|]. by rewrite bool_decide_false by congruence.
Qed.




Lemma otherYears_absent y lotteries :
  y ∉ DraftLottery.year <$> lotteries → otherYears y lotteries = lotteries.
Proof.
  induction lotteries as [|l ls IH]; [done|].
  rewrite fmap_cons, not_elem_of_cons, filter_cons. intros [Hne Hnin].
  rewrite decide_True by done. by rewrite IH.
Qed.

End StoreLists.

Section Store.
Context {Config : Type} (defaultConfig : Config).
Implicit Types (file : Database.File Config) (lottery : DraftLottery.t Config) (y : Z).

(** [X9] After [saveLottery lottery] on a file that is missing or holds a
    database, [getLotteryByYear] of that year returns [lottery] itself, and
    for every other year returns what it returned before. *)
Theorem saveLottery_getLotteryByYear file lottery :
  file ≠ Database.Unparseable →
  let file' := (Database.saveLottery defaultConfig lottery file).2 in
  (Database.saveLottery defaultConfig lottery file).1 = Some ()
  ∧ Database.getLotteryByYear defaultConfig (DraftLottery.year lottery) file'
    = (Some (Some lottery), file')
  ∧ ∀ y, y ≠ DraftLottery.year lottery →
         Database.getLotteryByYear defaultConfig y file'
         = ((Database.getLotteryByYear defaultConfig y file).1, file').
Proof.
  intros Hfile file'. subst file'.
  destruct file as [| |db]; [|done|];
    cbn -[List.find filter]; (split; [done|]).
  all: split;
    [ rewrite findYear_app, findYear_otherYears, decide_True by done;
      cbn [List.find]; by rewrite bool_decide_true
    | intros y Hy;
      rewrite findYear_app, findYear_otherYears, decide_False by done ].
  - cbn [List.find]. by rewrite bool_decide_false by congruence.
  - destruct (List.find _ (Database.lotteries db)); [done|].
    cbn [List.find]. by rewrite bool_decide_false by congruence.
Qed.


End Store.

(** Two lotteries of 2024, as in the test of the store: saving the second
    over the first. *)
Lemma saveLottery_getLotteryByYear_witness :
  let config := Database.defaultConfig 2024 in
  let old := DraftLottery.mk "lottery-2024" 2024 "2024-01-01" [] config in
  let new := DraftLottery.mk "lottery-2024" 2024 "2024-06-01" [] config in
  let file := Database.Holds (Database.mkSchema config [old]) in
  Database.getLotteryByYear config 2024 (Database.saveLottery config new file).2
  = (Some (Some new), (Database.saveLottery config new file).2).
Proof.
  intros config old new file.
  apply (saveLottery_getLotteryByYear config file new). done.
Defined.


Lemma sortByKey_year_descending {Config} (lotteries : list (DraftLottery.t Config)) :
  Sorted (λ y1 y2, y2 ≤ y1)
    (DraftLottery.year <$> sortByKey (λ l, - DraftLottery.year l) lotteries).
Proof.
  pose proof (sortByKey_Sorted (λ l : DraftLottery.t Config, - DraftLottery.year l)
                lotteries) as Hs.
  apply (Sorted_fmap Z.opp Z.le (λ y1 y2, y2 ≤ y1)) in Hs; [|intros; lia].
  rewrite <-list_fmap_compose in Hs.
  erewrite list_fmap_ext; [exact Hs|]. intros ? l _. simpl. lia.
Qed.

Section StoreMore.
Context {Config : Type} (defaultConfig : Config).
Implicit Types (file : Database.File Config) (lottery : DraftLottery.t Config) (y : Z).

(** [X11] After [deleteLottery y] on a file that is missing or holds a database,
    [getLotteryByYear y] returns [undefined], every other year returns what
    it returned before, and when no stored lottery was of year [y] the
    stored lotteries are the same list as before. *)
Theorem deleteLottery_getLotteryByYear file y :
  file ≠ Database.Unparseable →
  let file' := (Database.deleteLottery defaultConfig y file).2 in
  (Database.deleteLottery defaultConfig y file).1 = Some ()
  ∧ Database.getLotteryByYear defaultConfig y file' = (Some None, file')
  ∧ (∀ y', y' ≠ y →
           Database.getLotteryByYear defaultConfig y' file'
           = ((Database.getLotteryByYear defaultConfig y' file).1, file'))
  ∧ (y ∉ DraftLottery.year <$> Database.stored file →
     Database.stored file' = Database.stored file).
Proof.
  intros Hfile file'. subst file'.
  destruct file as [| |db]; [|done|];
    cbn -[List.find filter]; (split; [done|]).
  all: split; [by rewrite findYear_otherYears, decide_True by done|].
  all: split; [intros y' Hy; by rewrite findYear_otherYears, decide_False by done|].
  - done.
  - apply otherYears_absent.
Qed.

(** [X12] [getAllLotteries] on a file that is missing or holds a database
    returns the stored lotteries, each once, most recent year first, and
    does not change what is stored: the sorted order is not written back. *)
Theorem getAllLotteries_sorted file :
  file ≠ Database.Unparseable →
  ∃ result,
    Database.getAllLotteries defaultConfig file
    = (Some result, (Database.initialize defaultConfig file).2)
    ∧ result ≡ₚ Database.stored file
    ∧ Sorted (λ y1 y2, y2 ≤ y1) (DraftLottery.year <$> result)
    ∧ Database.stored (Database.getAllLotteries defaultConfig file).2
      = Database.stored file.
Proof.
  intros Hfile.
  destruct file as [| |db]; [|done|]; eexists; cbn -[sortByKey].
  - split; [done|]. repeat split; constructor.
  - split; [done|]. split; [apply sortByKey_Permutation|]. split; [apply sortByKey_year_descending|done].
Qed.

(** [X13] [getConfig] after [updateConfig c] returns [c]; [updateConfig] leaves
    the stored lotteries as they were, and [saveLottery] and
    [deleteLottery] leave the configuration as it was. *)
Theorem updateConfig_getConfig file (newConfig : Config) lottery y :
  file ≠ Database.Unparseable →
  (Database.getConfig defaultConfig
     (Database.updateConfig defaultConfig newConfig file).2).1 = Some newConfig
  ∧ Database.stored (Database.updateConfig defaultConfig newConfig file).2
    = Database.stored file
  ∧ (Database.getConfig defaultConfig
       (Database.saveLottery defaultConfig lottery file).2).1
    = (Database.getConfig defaultConfig file).1
  ∧ (Database.getConfig defaultConfig
       (Database.deleteLottery defaultConfig y file).2).1
    = (Database.getConfig defaultConfig file).1.
Proof. intros Hfile. by destruct file. Qed.

(** [X14] Of a missing file, a file that holds a database and a file whose
    text does not parse, only the last makes a method of the store reject,
    and the method then leaves the file as it is; [initialize] never
    rejects and leaves such a file as it is too. *)
Theorem store_rejects_iff file lottery y (newConfig : Config) :
  ((Database.getConfig defaultConfig file).1 = None ↔ file = Database.Unparseable)
  ∧ ((Database.updateConfig defaultConfig newConfig file).1 = None
     ↔ file = Database.Unparseable)
  ∧ ((Database.getAllLotteries defaultConfig file).1 = None
     ↔ file = Database.Unparseable)
  ∧ ((Database.getLotteryByYear defaultConfig y file).1 = None
     ↔ file = Database.Unparseable)
  ∧ ((Database.saveLottery defaultConfig lottery file).1 = None
     ↔ file = Database.Unparseable)
  ∧ ((Database.deleteLottery defaultConfig y file).1 = None
     ↔ file = Database.Unparseable)
  ∧ (Database.initialize defaultConfig file).1 = Some ()
  ∧ (file = Database.Unparseable →
     (Database.getConfig defaultConfig file).2 = file
     ∧ (Database.updateConfig defaultConfig newConfig file).2 = file
     ∧ (Database.getAllLotteries defaultConfig file).2 = file
     ∧ (Database.getLotteryByYear defaultConfig y file).2 = file
     ∧ (Database.saveLottery defaultConfig lottery file).2 = file
     ∧ (Database.deleteLottery defaultConfig y file).2 = file
     ∧ (Database.initialize defaultConfig file).2 = file).
Proof.
  destruct file as [| |db]; cbn -[sortByKey List.find filter];
    repeat split; try done; by intros [=].
Qed.

(** [X15] The first method called on a missing file creates it with the default
    database: [getConfig] then returns the default configuration and
    [getAllLotteries] the empty list.  [initialize] changes nothing but a
    missing file, so calling it twice is calling it once, and no method
    behaves differently for being called after it. *)
Theorem initialize_spec file lottery y (newConfig : Config) :
  Database.getConfig defaultConfig Database.Missing
  = (Some defaultConfig, Database.Holds (Database.defaultDatabase defaultConfig))
  ∧ Database.getAllLotteries defaultConfig Database.Missing
    = (Some [], Database.Holds (Database.defaultDatabase defaultConfig))
  ∧ (file ≠ Database.Missing → (Database.initialize defaultConfig file).2 = file)
  ∧ (Database.initialize defaultConfig (Database.initialize defaultConfig file).2).2
    = (Database.initialize defaultConfig file).2
  ∧ Database.getConfig defaultConfig (Database.initialize defaultConfig file).2
    = Database.getConfig defaultConfig file
  ∧ Database.updateConfig defaultConfig newConfig
      (Database.initialize defaultConfig file).2
    = Database.updateConfig defaultConfig newConfig file
  ∧ Database.getAllLotteries defaultConfig (Database.initialize defaultConfig file).2
    = Database.getAllLotteries defaultConfig file
  ∧ Database.getLotteryByYear defaultConfig y
      (Database.initialize defaultConfig file).2
    = Database.getLotteryByYear defaultConfig y file
  ∧ Database.saveLottery defaultConfig lottery
      (Database.initialize defaultConfig file).2
    = Database.saveLottery defaultConfig lottery file
  ∧ Database.deleteLottery defaultConfig y (Database.initialize defaultConfig file).2
    = Database.deleteLottery defaultConfig y file.
Proof. destruct file; repeat split; done. Qed.

(** [X16] Saving twice for one year keeps the second lottery only: the file is
    the one that the second save alone would leave.  Saving the same
    lottery twice is saving it once, and deleting a year after saving a
    lottery of that year is deleting it without the save. *)
Theorem saveLottery_last_wins file lottery1 lottery2 :
  DraftLottery.year lottery1 = DraftLottery.year lottery2 →
  Database.saveLottery defaultConfig lottery2
    (Database.saveLottery defaultConfig lottery1 file).2
  = Database.saveLottery defaultConfig lottery2 file
  ∧ Database.saveLottery defaultConfig lottery2
      (Database.saveLottery defaultConfig lottery2 file).2
    = Database.saveLottery defaultConfig lottery2 file
  ∧ Database.deleteLottery defaultConfig (DraftLottery.year lottery2)
      (Database.saveLottery defaultConfig lottery1 file).2
    = Database.deleteLottery defaultConfig (DraftLottery.year lottery2) file.
Proof.
  intros Hyear.
  assert (∀ (lottery : DraftLottery.t Config) (lotteries : list (DraftLottery.t Config)),
            DraftLottery.year lottery = DraftLottery.year lottery2 →
            filter (λ l, DraftLottery.year l ≠ DraftLottery.year lottery2)
              (filter (λ l, DraftLottery.year l ≠ DraftLottery.year lottery) lotteries
               ++ [lottery])
            = filter (λ l, DraftLottery.year l ≠ DraftLottery.year lottery2) lotteries)
    as Hfilter.
  { intros lottery lotteries Hy. rewrite filter_app, filter_cons, filter_nil.
    rewrite decide_False, app_nil_r by (intros Hne; by apply Hne).
    rewrite Hy. induction lotteries as [|l ls IH]; [done|].
    rewrite !filter_cons. case_decide; [|done].
    rewrite filter_cons, decide_True by done. by rewrite IH. }
  destruct file as [| |db]; cbn -[filter]; repeat split; try done.
  all: rewrite ?(Hfilter lottery1), ?(Hfilter lottery2) by done; done.
Qed.

End StoreMore.

Lemma deleteLottery_getLotteryByYear_witness :
  let config := Database.defaultConfig 2024 in
  let lottery := DraftLottery.mk "lottery-2024" 2024 "2024-01-01" [] config in
  let file := Database.Holds (Database.mkSchema config [lottery]) in
  Database.getLotteryByYear config 2024 (Database.deleteLottery config 2024 file).2
  = (Some None, (Database.deleteLottery config 2024 file).2).
Proof.
  intros config lottery file.
  apply (deleteLottery_getLotteryByYear config file 2024). done.
Defined.

Lemma getAllLotteries_sorted_witness :
  let config := Database.defaultConfig 2025 in
  let lottery y := DraftLottery.mk ("lottery-" +:+ pretty y) y "" [] config in
  let file := Database.Holds (Database.mkSchema config
                                [lottery 2023; lottery 2025; lottery 2024]) in
  ∃ result,
    Database.getAllLotteries config file = (Some result, file)
    ∧ DraftLottery.year <$> result = [2025; 2024; 2023]
    ∧ Database.stored (Database.getAllLotteries config file).2 = Database.stored file.
Proof.
  intros config lottery file.
  destruct (getAllLotteries_sorted config file) as (result & Hrun & _ & _ & Hkept);
    [done|].
  exists result. split; [exact Hrun|]. split; [|exact Hkept].
  injection Hrun as <-. reflexivity.
Defined.

Lemma updateConfig_getConfig_witness :
  let config := Database.defaultConfig 2024 in
  let lottery := DraftLottery.mk "lottery-2024" 2024 "2024-01-01" [] config in
  (Database.getConfig config
     (Database.updateConfig config (Database.defaultConfig 2025) Database.Missing).2).1
  = Some (Database.defaultConfig 2025).
Proof.
  intros config lottery.
  apply (updateConfig_getConfig config Database.Missing (Database.defaultConfig 2025)
           lottery 0).
  done.
Defined.

Lemma saveLottery_last_wins_witness :
  let config := Database.defaultConfig 2024 in
  let old := DraftLottery.mk "lottery-2024" 2024 "2024-01-01" [] config in
  let new := DraftLottery.mk "lottery-2024" 2024 "2024-06-01" [] config in
  Database.saveLottery config new (Database.saveLottery config old Database.Missing).2
  = Database.saveLottery config new Database.Missing.
Proof.
  intros config old new.
  apply (saveLottery_last_wins config Database.Missing old new). reflexivity.
Defined.

(** * The HTTP handlers *)

Section HandlerProperties.
Context {Config : Type} (defaultConfig : Config) (parseInt : string → option Z).
Implicit Types (file : Database.File Config) (lottery : DraftLottery.t Config).


(** [X18] A lottery that [saveLottery] has stored is what [GET /api/lottery/[year]]
    answers, with status 200, for a year parameter that [parseInt] reads as
    the year of that lottery; after [deleteLottery] of that year the
    answer is 404. *)
Theorem getLottery_after_saveLottery (yearParam : option string) file lottery :
  file ≠ Database.Unparseable →
  parseInt (default "" yearParam) = Some (DraftLottery.year lottery) →
  (Api.getLottery defaultConfig parseInt yearParam
     (Database.saveLottery defaultConfig lottery file).2).1
  = Api.json (Api.LotteryBody lottery) 200
  ∧ Api.status
      (Api.getLottery defaultConfig parseInt yearParam
         (Database.deleteLottery defaultConfig (DraftLottery.year lottery) file).2).1
    = 404.
Proof.
  intros Hfile Hparse. unfold Api.getLottery. rewrite Hparse.
  destruct file as [| |db]; [|done|]; cbn -[List.find filter].
  all: rewrite findYear_app, !findYear_otherYears, decide_True by done.
  all: cbn [List.find]; by rewrite bool_decide_true.
Qed.



End HandlerProperties.

Lemma getLottery_after_saveLottery_witness :
  let config := Database.defaultConfig 2024 in
  let parseInt :=
    λ text : string, if decide (text = "2024") then Some 2024 else None in
  let lottery := DraftLottery.mk "lottery-2024" 2024 "2024-06-01" [] config in
  (Api.getLottery config parseInt (Some "2024")
     (Database.saveLottery config lottery Database.Missing).2).1
  = Api.json (Api.LotteryBody lottery) 200
  ∧ Api.status
      (Api.getLottery config parseInt (Some "2024")
         (Database.deleteLottery config 2024 Database.Missing).2).1
    = 404.
Proof.
  intros config parseInt lottery.
  apply (getLottery_after_saveLottery config parseInt (Some "2024") Database.Missing
           lottery); done.
Defined.
